(** * Ultimate Tic-Tac-Toe: rules engine, room state machine and search

    A shallow embedding of
    - [src/app/api/game/[roomId]/route.ts]  (room driver: join, move, reset),
    - the room-creation endpoint,
    - [UltimateTicTacToe] in [src/components/multiplayer-modal.tsx]
      (local / AI driver: [handleMove], [evaluateBoard], [minimax]),
    - [makeMove] of the in-browser store, [src/lib/multiplayer-store.ts],
    and the properties of the specification that concern them. *)

From stdpp Require Import base numbers list strings relations gmap.

Local Open Scope Z_scope.

(** ** JavaScript values stored in the boards *)

(** ["X" | "O"] *)
Inductive Symbol := X | O.

(** ["X" | "O" | "draw"] *)
Inductive Mark := Sym (s : Symbol) | Draw.

(** An array slot: [null] is [None]. *)
Definition Cell := option Mark.

#[global] Instance Symbol_eq_dec : EqDecision Symbol.
Proof. solve_decision. Defined.
#[global] Instance Mark_eq_dec : EqDecision Mark.
Proof. solve_decision. Defined.

(** [arr[i]] for a JavaScript number [i] that is an integer: an index outside
    the array reads [undefined], which is [None] here. *)
Definition idx {A : Type} (arr : list A) (i : Z) : option A :=
  if 0 <=? i then arr !! Z.to_nat i else None.

(** [arr[i] = v].  Every write of the program is preceded by a read
    [arr[i] === null] that succeeded, so the index is inside the array
    (see [is_null_in_range]); outside it this function leaves the array as
    it is, where JavaScript would add a property. *)
Definition setIdx {A : Type} (arr : list A) (i : Z) (v : A) : list A :=
  if 0 <=? i then <[Z.to_nat i := v]> arr else arr.

(** [v === null] and [v !== null] for the result of an array read. *)
Definition is_null (v : option Cell) : bool :=
  match v with Some None => true | _ => false end.

(** [v === w] on the results of two array reads. *)
Definition strict_eq (v w : option Cell) : bool := bool_decide (v = w).

(** [player === "X" ? "O" : "X"] *)
Definition other (player : Symbol) : Symbol :=
  match player with X => O | O => X end.

(** [Array(9).fill(null)] and [Array(9).fill(null).map(() => Array(9).fill(null))] *)
Definition emptyBoard : list Cell := replicate 9 None.
Definition emptyBoards : list (list Cell) := replicate 9 emptyBoard.

(** ** Board geometry and the win/draw evaluator *)

Definition WINNING_COMBINATIONS : list (Z * Z * Z) :=
  [ (0, 1, 2); (3, 4, 5); (6, 7, 8);
    (0, 3, 6); (1, 4, 7); (2, 5, 8);
    (0, 4, 8); (2, 4, 6) ].

(** The body of the loop of [checkBoardWinner]:
    [board[a] && board[a] === board[b] && board[a] === board[c]]; the
    truthy values of a slot are the three non-empty strings. *)
Definition lineWinner (board : list Cell) (line : Z * Z * Z) : option Mark :=
  let '(a, b, c) := line in
  match idx board a with
  | Some (Some m) =>
      if strict_eq (idx board a) (idx board b) && strict_eq (idx board a) (idx board c)
      then Some m else None
  | _ => None
  end.

(** [for (const [a, b, c] of lines) { if (...) return board[a] }] *)
Fixpoint firstLine (board : list Cell) (lines : list (Z * Z * Z)) : option Mark :=
  match lines with
  | [] => None
  | line :: rest =>
      match lineWinner board line with
      | Some m => Some m
      | None => firstLine board rest
      end
  end.

(** [board.every((cell) => cell !== null)] *)
Definition allFilled (board : list Cell) : bool :=
  forallb (fun cell => bool_decide (cell ≠ None)) board.

Definition checkBoardWinner (board : list Cell) : Cell :=
  match firstLine board WINNING_COMBINATIONS with
  | Some m => Some m
  | None => if allFilled board then Some Draw else None
  end.

(** Nine sub-boards of nine cells and nine statuses. *)
Definition shape (boards : list (list Cell)) (mainBoard : list Cell) : Prop :=
  length mainBoard = 9%nat ∧ length boards = 9%nat
  ∧ Forall (λ row, length row = 9%nat) boards.

(** ** The local / AI driver: the state cells of [UltimateTicTacToe] *)

Module Local.

(** The seven [useState] cells that hold the game. *)
Record State := mkState {
  boards : list (list Cell);
  mainBoard : list Cell;
  currentPlayer : Symbol;
  nextBoardIndex : Z;
  gameOver : bool;
  winner : Cell;
  lastMove : option (Z * Z)
}.

(** The initial values of the cells, which [resetGame] restores. *)
Definition initial : State :=
  {| boards := emptyBoards; mainBoard := emptyBoard; currentPlayer := X;
     nextBoardIndex := -1; gameOver := false; winner := None; lastMove := None |}.

Definition resetGame (s : State) : State := initial.

(** How a call of [handleMove] ends: an early [return] at a guard, the
    run to the end (or to the [return] after [setGameOver(true)]), or an
    uncaught [TypeError] (reading an index of [undefined]). *)
Inductive Outcome := Ignored | Applied | TypeError.

(** [handleMove] outside multiplayer mode.  The state setters take effect
    together when the handler has returned; every read inside the handler
    sees the cells as they were at the call. *)
Definition handleMove (s : State) (boardIndex cellIndex : Z) : Outcome * State :=
  if gameOver s then (Ignored, s)
  else if negb (nextBoardIndex s =? -1)
          && negb (nextBoardIndex s =? boardIndex)
          && is_null (idx (mainBoard s) (nextBoardIndex s))
  then (Ignored, s)
  else if negb (is_null (idx (mainBoard s) boardIndex)) then (Ignored, s)
  else
    match idx (boards s) boardIndex with
    | None => (TypeError, s)
    | Some row =>
        if negb (is_null (idx row cellIndex)) then (Ignored, s)
        else
          let newBoards :=
            setIdx (boards s) boardIndex
                   (setIdx row cellIndex (Some (Sym (currentPlayer s)))) in
          let nextBoard := if is_null (idx (mainBoard s) cellIndex) then cellIndex else -1 in
          match checkBoardWinner (setIdx row cellIndex (Some (Sym (currentPlayer s)))) with
          | Some boardWinner =>
              let newMainBoard := setIdx (mainBoard s) boardIndex (Some boardWinner) in
              match checkBoardWinner newMainBoard with
              | Some gameWinner =>
                  (Applied,
                   {| boards := newBoards; mainBoard := newMainBoard;
                      currentPlayer := currentPlayer s;
                      nextBoardIndex := nextBoardIndex s;
                      gameOver := true; winner := Some gameWinner;
                      lastMove := Some (boardIndex, cellIndex) |})
              | None =>
                  (Applied,
                   {| boards := newBoards; mainBoard := newMainBoard;
                      currentPlayer := other (currentPlayer s);
                      nextBoardIndex := nextBoard;
                      gameOver := gameOver s; winner := winner s;
                      lastMove := Some (boardIndex, cellIndex) |})
              end
          | None =>
              (Applied,
               {| boards := newBoards; mainBoard := mainBoard s;
                  currentPlayer := other (currentPlayer s);
                  nextBoardIndex := nextBoard;
                  gameOver := gameOver s; winner := winner s;
                  lastMove := Some (boardIndex, cellIndex) |})
          end
    end.

(** The effect "Check if the entire game is a draw", which runs after a
    render outside multiplayer mode. *)
Definition drawEffect (s : State) : State :=
  if negb (gameOver s) && allFilled (mainBoard s) then
    {| boards := boards s; mainBoard := mainBoard s;
       currentPlayer := currentPlayer s; nextBoardIndex := nextBoardIndex s;
       gameOver := true;
       winner := match checkBoardWinner (mainBoard s) with
                 | Some gameWinner => Some gameWinner
                 | None => Some Draw
                 end;
       lastMove := lastMove s |}
  else s.

(** The states the component can show outside multiplayer mode. *)
Inductive reachable : State → Prop :=
| reach_initial : reachable initial
| reach_move s boardIndex cellIndex :
    reachable s → reachable (handleMove s boardIndex cellIndex).2
| reach_effect s : reachable s → reachable (drawEffect s)
| reach_reset s : reachable s → reachable (resetGame s).

(** Clicks on the cells [moves], in order. *)
Definition play (s : State) (moves : list (Z * Z)) : State :=
  fold_left (λ s '(boardIndex, cellIndex), (handleMove s boardIndex cellIndex).2)
            moves s.

End Local.

(** ** The room driver *)

Module Room.

Record GameRoom := mkRoom {
  id : string;
  players : list string;
  spectators : list string;
  currentPlayer : Symbol;
  boards : list (list Cell);
  mainBoard : list Cell;
  nextBoardIndex : Z;
  gameOver : bool;
  winner : Cell;
  lastMove : option (Z * Z);
  lastUpdateTime : Z
}.

(** The game-state fields of a room, as the seven cells of the local driver. *)
Definition gameState (room : GameRoom) : Local.State :=
  {| Local.boards := boards room; Local.mainBoard := mainBoard room;
     Local.currentPlayer := currentPlayer room;
     Local.nextBoardIndex := nextBoardIndex room;
     Local.gameOver := gameOver room; Local.winner := winner room;
     Local.lastMove := lastMove room |}.

(** What a handler answers: a JSON error body with status 400, a success
    body, or an uncaught [TypeError] (reading an index of [undefined]). *)
Inductive JoinSymbol := JoinedAs (s : Symbol) | Spectator.

Inductive Response :=
| RError (error : string)
| RJoined (playerSymbol : JoinSymbol) (isHost : bool)
| RSuccess
| RTypeError.

(** [players.indexOf(playerId)] *)
Fixpoint indexOf (l : list string) (x : string) : Z :=
  match l with
  | [] => -1
  | y :: rest =>
      if bool_decide (y = x) then 0
      else let i := indexOf rest x in if i =? -1 then -1 else i + 1
  end.

(** [players.includes(playerId)] *)
Definition includes (l : list string) (x : string) : bool :=
  bool_decide (x ∈ l).

(** The creation endpoint; [roomId] is the random code it draws and [now] is
    [Date.now()].  An empty [playerId] is answered with an error and no room. *)
Definition createRoom (roomId playerId : string) (now : Z) : option GameRoom :=
  if bool_decide (playerId = "") then None
  else Some {| id := roomId; players := [playerId]; spectators := [];
               currentPlayer := X; boards := emptyBoards; mainBoard := emptyBoard;
               nextBoardIndex := -1; gameOver := false; winner := None;
               lastMove := None; lastUpdateTime := now |}.

Definition handleJoinRoom (room : GameRoom) (playerId : string) (now : Z)
  : Response * GameRoom :=
  if includes (players room) playerId then
    (RJoined (if indexOf (players room) playerId =? 0 then JoinedAs X else JoinedAs O)
             (indexOf (players room) playerId =? 0), room)
  else if 2 <=? Z.of_nat (length (players room)) then
    (RJoined Spectator false,
     {| id := id room; players := players room;
        spectators := if includes (spectators room) playerId then spectators room
                      else spectators room ++ [playerId];
        currentPlayer := currentPlayer room; boards := boards room;
        mainBoard := mainBoard room; nextBoardIndex := nextBoardIndex room;
        gameOver := gameOver room; winner := winner room;
        lastMove := lastMove room; lastUpdateTime := lastUpdateTime room |})
  else
    (RJoined (JoinedAs O) false,
     {| id := id room; players := players room ++ [playerId];
        spectators := spectators room;
        currentPlayer := currentPlayer room; boards := boards room;
        mainBoard := mainBoard room; nextBoardIndex := nextBoardIndex room;
        gameOver := gameOver room; winner := winner room;
        lastMove := lastMove room; lastUpdateTime := now |}).

Definition handleMakeMove (room : GameRoom) (playerId : string)
    (boardIndex cellIndex : Z) (now : Z) : Response * GameRoom :=
  let playerIndex := indexOf (players room) playerId in
  if (playerIndex =? -1)
     || ((playerIndex =? 0) && bool_decide (currentPlayer room ≠ X))
     || ((playerIndex =? 1) && bool_decide (currentPlayer room ≠ O))
  then (RError "Not your turn", room)
  else if gameOver room then (RError "Game is over", room)
  else if negb (nextBoardIndex room =? -1)
          && negb (nextBoardIndex room =? boardIndex)
          && is_null (idx (mainBoard room) (nextBoardIndex room))
  then (RError "Invalid board", room)
  else if negb (is_null (idx (mainBoard room) boardIndex))
  then (RError "Board already won", room)
  else
    match idx (boards room) boardIndex with
    | None => (RTypeError, room)
    | Some row =>
        if negb (is_null (idx row cellIndex))
        then (RError "Cell already filled", room)
        else
          (* Make the move *)
          let row1 := setIdx row cellIndex (Some (Sym (currentPlayer room))) in
          let boards1 := setIdx (boards room) boardIndex row1 in
          (* Check if this move won the small board, and then the game *)
          let boardWinner := checkBoardWinner row1 in
          let mainBoard1 :=
            match boardWinner with
            | Some m => setIdx (mainBoard room) boardIndex (Some m)
            | None => mainBoard room
            end in
          let gameWinner :=
            match boardWinner with
            | Some _ => checkBoardWinner mainBoard1
            | None => None
            end in
          let winner1 := match gameWinner with Some w => Some w | None => winner room end in
          let gameOver1 := match gameWinner with Some _ => true | None => gameOver room end in
          (* Set the next board to play in; switch player *)
          let nextBoardIndex1 :=
            if is_null (idx mainBoard1 cellIndex) then cellIndex else -1 in
          let currentPlayer1 := other (currentPlayer room) in
          (* Check for draw *)
          let isDraw := negb gameOver1 && allFilled mainBoard1 in
          (RSuccess,
           {| id := id room; players := players room; spectators := spectators room;
              currentPlayer := currentPlayer1; boards := boards1;
              mainBoard := mainBoard1; nextBoardIndex := nextBoardIndex1;
              gameOver := if isDraw then true else gameOver1;
              winner := if isDraw then Some Draw else winner1;
              lastMove := Some (boardIndex, cellIndex); lastUpdateTime := now |})
    end.

Definition handleResetGame (room : GameRoom) (playerId : string) (now : Z)
  : Response * GameRoom :=
  if bool_decide (idx (players room) 0 ≠ Some playerId)
  then (RError "Only host can reset the game", room)
  else
    (RSuccess,
     {| id := id room; players := players room; spectators := spectators room;
        currentPlayer := X; boards := emptyBoards; mainBoard := emptyBoard;
        nextBoardIndex := -1; gameOver := false; winner := None;
        lastMove := None; lastUpdateTime := now |}).

(** Rooms the server can hold: created by the creation endpoint and then
    driven by any sequence of join, move and reset requests. *)
Inductive reachable : GameRoom → Prop :=
| reach_create roomId playerId now room :
    createRoom roomId playerId now = Some room → reachable room
| reach_join room playerId now :
    reachable room → reachable (handleJoinRoom room playerId now).2
| reach_move room playerId boardIndex cellIndex now :
    reachable room →
    reachable (handleMakeMove room playerId boardIndex cellIndex now).2
| reach_reset room playerId now :
    reachable room → reachable (handleResetGame room playerId now).2.

(** A request that is not a reset: a join or a move. *)
Inductive advances : GameRoom → GameRoom → Prop :=
| adv_join room playerId now :
    advances room (handleJoinRoom room playerId now).2
| adv_move room playerId boardIndex cellIndex now :
    advances room (handleMakeMove room playerId boardIndex cellIndex now).2.

(** The symbol a participant holds: the host plays X, the second player O,
    anyone else holds none. *)
Definition symbolOf (room : GameRoom) (playerId : string) : option Symbol :=
  if includes (players room) playerId
  then Some (if indexOf (players room) playerId =? 0 then X else O)
  else None.

(** Legality of a move as the rules state it: the game is not over; when
    [nextBoardIndex] names an unresolved sub-board the move is in that
    sub-board; the target sub-board is unresolved; the target cell is
    empty. *)
Definition isLegal (room : GameRoom) (boardIndex cellIndex : Z) : Prop :=
  gameOver room = false
  ∧ (nextBoardIndex room ≠ -1 →
     idx (mainBoard room) (nextBoardIndex room) = Some None →
     boardIndex = nextBoardIndex room)
  ∧ idx (mainBoard room) boardIndex = Some None
  ∧ ∃ row, idx (boards room) boardIndex = Some row ∧ idx row cellIndex = Some None.

(** What every room the server holds satisfies. *)
Record invariant (room : GameRoom) : Prop := mkInvariant {
  inv_shape : shape (boards room) (mainBoard room);
  inv_players : (length (players room) ≤ 2)%nat;
  inv_winner : gameOver room = true ↔ winner room ≠ None;
  inv_open : gameOver room = false → checkBoardWinner (mainBoard room) = None;
  inv_status : ∀ i row, idx (boards room) i = Some row →
                        idx (mainBoard room) i = Some (checkBoardWinner row)
}.

(** Move requests [(boardIndex, cellIndex)] sent in turn by the player
    whose symbol is [currentPlayer], at times [now], [now + 1], ... *)
Fixpoint play (room : GameRoom) (now : Z) (moves : list (Z * Z)) : GameRoom :=
  match moves with
  | [] => room
  | (boardIndex, cellIndex) :: rest =>
      let playerId :=
        default "" (idx (players room)
                        (match currentPlayer room with X => 0 | O => 1 end)) in
      play (handleMakeMove room playerId boardIndex cellIndex now).2 (now + 1) rest
  end.

(** A room created by ["alice"] at time 0 and joined by ["bob"] at time 1. *)
Definition twoPlayers : GameRoom :=
  (handleJoinRoom
     {| id := "ROOM42"; players := ["alice"]; spectators := [];
        currentPlayer := X; boards := emptyBoards; mainBoard := emptyBoard;
        nextBoardIndex := -1; gameOver := false; winner := None;
        lastMove := None; lastUpdateTime := 0 |} "bob" 1).2.

(** Any request to the room: a join, a move or a reset. *)
Inductive request : GameRoom → GameRoom → Prop :=
| req_join room playerId now :
    request room (handleJoinRoom room playerId now).2
| req_move room playerId boardIndex cellIndex now :
    request room (handleMakeMove room playerId boardIndex cellIndex now).2
| req_reset room playerId now :
    request room (handleResetGame room playerId now).2.

(** The number of cells of the sub-boards that hold the mark of [who]. *)
Definition marksOf (who : Symbol) (boards : list (list Cell)) : Z :=
  Z.of_nat (length (filter (λ cell, cell = Some (Sym who)) (concat boards))).

End Room.

(** ** The in-browser store of [src/lib/multiplayer-store.ts] *)

Module Store.

(** The room record of the store; it has no [spectators]. *)
Record GameRoom := mkRoom {
  id : string;
  players : list string;
  currentPlayer : Symbol;
  boards : list (list Cell);
  mainBoard : list Cell;
  nextBoardIndex : Z;
  gameOver : bool;
  winner : Cell;
  lastMove : option (Z * Z);
  lastUpdateTime : Z
}.

(** ["X" | "O" | "spectator"]; [null] is [None]. *)
Inductive PlayerSymbol := Plays (s : Symbol) | Watches.

#[global] Instance PlayerSymbol_eq_dec : EqDecision PlayerSymbol.
Proof. solve_decision. Defined.

Record State := mkState {
  playerId : string;
  playerSymbol : option PlayerSymbol;
  currentRoom : option GameRoom;
  isHost : bool;
  rooms : gmap string GameRoom
}.

(** How a call ends: [return false], [return true], or an uncaught
    [TypeError]. *)
Inductive Outcome := Returned (accepted : bool) | TypeError.

Definition gameState (room : GameRoom) : Local.State :=
  {| Local.boards := boards room; Local.mainBoard := mainBoard room;
     Local.currentPlayer := currentPlayer room;
     Local.nextBoardIndex := nextBoardIndex room;
     Local.gameOver := gameOver room; Local.winner := winner room;
     Local.lastMove := lastMove room |}.

Definition makeMove (st : State) (boardIndex cellIndex : Z) (now : Z)
  : Outcome * State :=
  match currentRoom st with
  | None => (Returned false, st)
  | Some room =>
      if bool_decide (playerSymbol st ≠ Some (Plays (currentPlayer room)))
         || bool_decide (playerSymbol st = Some Watches)
      then (Returned false, st)
      else if gameOver room then (Returned false, st)
      else if negb (nextBoardIndex room =? -1)
              && negb (nextBoardIndex room =? boardIndex)
              && is_null (idx (mainBoard room) (nextBoardIndex room))
      then (Returned false, st)
      else if negb (is_null (idx (mainBoard room) boardIndex))
      then (Returned false, st)
      else
        match idx (boards room) boardIndex with
        | None => (TypeError, st)
        | Some row =>
            if negb (is_null (idx row cellIndex)) then (Returned false, st)
            else
              (* Make the move *)
              let row1 := setIdx row cellIndex (Some (Sym (currentPlayer room))) in
              let newBoards := setIdx (boards room) boardIndex row1 in
              (* Check if this move won the small board *)
              let boardWinner := checkBoardWinner row1 in
              let newMainBoard :=
                match boardWinner with
                | Some m => setIdx (mainBoard room) boardIndex (Some m)
                | None => mainBoard room
                end in
              (* Check if this won the game *)
              let gameWinner := checkBoardWinner newMainBoard in
              let gameOver1 :=
                match gameWinner with Some _ => true | None => gameOver room end in
              let winner1 :=
                match gameWinner with Some w => Some w | None => winner room end in
              (* Check for draw *)
              let isDraw := negb gameOver1 && allFilled newMainBoard in
              let nextBoard :=
                if is_null (idx newMainBoard cellIndex) then cellIndex else -1 in
              let updatedRoom :=
                {| id := id room; players := players room;
                   currentPlayer := other (currentPlayer room);
                   boards := newBoards; mainBoard := newMainBoard;
                   nextBoardIndex := nextBoard;
                   gameOver := if isDraw then true else gameOver1;
                   winner := if isDraw then Some Draw else winner1;
                   lastMove := Some (boardIndex, cellIndex);
                   lastUpdateTime := now |} in
              (Returned true,
               {| playerId := playerId st; playerSymbol := playerSymbol st;
                  currentRoom := Some updatedRoom; isHost := isHost st;
                  rooms := <[id room := updatedRoom]> (rooms st) |})
        end
  end.

(** The store as the module creates it, for the participant [playerId]. *)
Definition empty (playerId : string) : State :=
  {| playerId := playerId; playerSymbol := None; currentRoom := None;
     isHost := false; rooms := ∅ |}.

(** [createRoom]; [roomId] is the random code it draws. *)
Definition createRoom (st : State) (roomId : string) (now : Z) : string * State :=
  let newRoom :=
    {| id := roomId; players := [playerId st]; currentPlayer := X;
       boards := emptyBoards; mainBoard := emptyBoard; nextBoardIndex := -1;
       gameOver := false; winner := None; lastMove := None;
       lastUpdateTime := now |} in
  (roomId,
   {| playerId := playerId st; playerSymbol := Some (Plays X);
      currentRoom := Some newRoom; isHost := true;
      rooms := <[roomId := newRoom]> (rooms st) |}).

(** [{ success, error }] *)
Inductive JoinResult := JoinOk | JoinError (error : string).

Definition joinRoom (st : State) (roomId : string) (now : Z) : JoinResult * State :=
  match rooms st !! roomId with
  | None => (JoinError "Room not found", st)
  | Some room =>
      if Room.includes (players room) (playerId st) then
        (JoinOk,
         {| playerId := playerId st;
            playerSymbol :=
              Some (Plays (if Room.indexOf (players room) (playerId st) =? 0
                           then X else O));
            currentRoom := Some room;
            isHost := Room.indexOf (players room) (playerId st) =? 0;
            rooms := rooms st |})
      else if 2 <=? Z.of_nat (length (players room)) then
        (JoinOk,
         {| playerId := playerId st; playerSymbol := Some Watches;
            currentRoom := Some room; isHost := false; rooms := rooms st |})
      else
        let updatedRoom :=
          {| id := id room; players := players room ++ [playerId st];
             currentPlayer := currentPlayer room; boards := boards room;
             mainBoard := mainBoard room; nextBoardIndex := nextBoardIndex room;
             gameOver := gameOver room; winner := winner room;
             lastMove := lastMove room; lastUpdateTime := now |} in
        (JoinOk,
         {| playerId := playerId st; playerSymbol := Some (Plays O);
            currentRoom := Some updatedRoom; isHost := false;
            rooms := <[roomId := updatedRoom]> (rooms st) |})
  end.

(** [updatedPlayers.splice(playerIndex, 1)] *)
Definition splice1 (l : list string) (i : Z) : list string :=
  if 0 <=? i then delete (Z.to_nat i) l else l.

Definition leaveRoom (st : State) (now : Z) : State :=
  match currentRoom st with
  | None => st
  | Some room =>
      let playerIndex := Room.indexOf (players room) (playerId st) in
      let left (rooms' : gmap string GameRoom) :=
        {| playerId := playerId st; playerSymbol := None; currentRoom := None;
           isHost := false; rooms := rooms' |} in
      if negb (playerIndex =? -1) then
        let updatedPlayers := splice1 (players room) playerIndex in
        if Z.of_nat (length updatedPlayers) =? 0
        then left (delete (id room) (rooms st))
        else
          left (<[id room :=
                   {| id := id room; players := updatedPlayers;
                      currentPlayer := currentPlayer room; boards := boards room;
                      mainBoard := mainBoard room;
                      nextBoardIndex := nextBoardIndex room;
                      gameOver := gameOver room; winner := winner room;
                      lastMove := lastMove room; lastUpdateTime := now |}]>
                  (rooms st))
      else left (rooms st)
  end.

Definition resetGame (st : State) (now : Z) : State :=
  match currentRoom st with
  | None => st
  | Some room =>
      if bool_decide (playerSymbol st ≠ Some (Plays X)) && negb (isHost st) then st
      else
        let updatedRoom :=
          {| id := id room; players := players room; currentPlayer := X;
             boards := emptyBoards; mainBoard := emptyBoard; nextBoardIndex := -1;
             gameOver := false; winner := None; lastMove := None;
             lastUpdateTime := now |} in
        {| playerId := playerId st; playerSymbol := playerSymbol st;
           currentRoom := Some updatedRoom; isHost := isHost st;
           rooms := <[id room := updatedRoom]> (rooms st) |}
  end.


(** The calls a page can make on the store. *)
Inductive Call :=
| CallCreate (roomId : string)
| CallJoin (roomId : string)
| CallLeave
| CallMove (boardIndex cellIndex : Z)
| CallReset.

Definition run (st : State) (call : Call) (now : Z) : State :=
  match call with
  | CallCreate roomId => (createRoom st roomId now).2
  | CallJoin roomId => (joinRoom st roomId now).2
  | CallLeave => leaveRoom st now
  | CallMove boardIndex cellIndex => (makeMove st boardIndex cellIndex now).2
  | CallReset => resetGame st now
  end.

(** The states of a store that started empty. *)
Inductive reachable (me : string) : State → Prop :=
| reach_empty : reachable me (empty me)
| reach_run st call now : reachable me st → reachable me (run st call now).

End Store.

(** ** The heuristic evaluator and the adversarial search of the AI driver *)

Module Search.

(** A JavaScript number as the search uses it: an integer score, or one of
    [Number.NEGATIVE_INFINITY] and [Number.POSITIVE_INFINITY]. *)
Inductive Num := NegInf | Fin (z : Z) | PosInf.

#[global] Instance Num_eq_dec : EqDecision Num.
Proof. solve_decision. Defined.

(** [a < b] and [a <= b] on numbers. *)
Definition ltb (a b : Num) : bool :=
  match a, b with
  | _, NegInf => false
  | NegInf, _ => true
  | PosInf, _ => false
  | Fin _, PosInf => true
  | Fin x, Fin y => x <? y
  end.

Definition leb (a b : Num) : bool := negb (ltb b a).

(** [Math.max(a, b)] and [Math.min(a, b)] *)
Definition max (a b : Num) : Num := if ltb a b then b else a.
Definition min (a b : Num) : Num := if ltb b a then b else a.

(** [{ boardIndex, cellIndex }] *)
Definition Move : Type := Z * Z.

(** [{ score, move }]; a missing [move] is [None]. *)
Record Result := mkResult { score : Num; move : option Move }.

(** [line.filter((cell) => cell === who).length] *)
Definition countOf (who : Symbol) (line : list (option Cell)) : Z :=
  Z.of_nat (length (filter (λ cell, cell = Some (Some (Sym who))) line)).

(** The two conditional updates of [score] for one line; [weight] is 10 on
    the main board and 1 inside a sub-board. *)
Definition scoreLine (weight : Z) (player : Symbol) (board : list Cell)
    (score : Z) (line : Z * Z * Z) : Z :=
  let '(a, b, c) := line in
  let cells := [idx board a; idx board b; idx board c] in
  let playerCount := countOf player cells in
  let opponentCount := countOf (other player) cells in
  let score1 :=
    if (0 <? playerCount) && (opponentCount =? 0)
    then score + playerCount * weight else score in
  if (0 <? opponentCount) && (playerCount =? 0)
  then score1 - opponentCount * weight else score1.

(** [for (let boardIndex = 0; boardIndex < 9; boardIndex++)] of
    [evaluateBoard]; reading a line of a missing sub-board is a [TypeError],
    which is [None]. *)
Fixpoint scoreBoards (player : Symbol) (boards : list (list Cell))
    (mainBoard : list Cell) (indices : list Z) (score : Z) : option Z :=
  match indices with
  | [] => Some score
  | boardIndex :: rest =>
      if is_null (idx mainBoard boardIndex) then
        match idx boards boardIndex with
        | None => None
        | Some row =>
            scoreBoards player boards mainBoard rest
              (fold_left (scoreLine 1 player row) WINNING_COMBINATIONS score)
        end
      else scoreBoards player boards mainBoard rest score
  end.

(** [evaluateBoard(player)]: it reads the state cells [boards] and
    [mainBoard] of the component, which are [s]. *)
Definition evaluateBoard (s : Local.State) (player : Symbol) : option Z :=
  let opponent := other player in
  let gameWinner := checkBoardWinner (Local.mainBoard s) in
  if bool_decide (gameWinner = Some (Sym player)) then Some 1000
  else if bool_decide (gameWinner = Some (Sym opponent)) then Some (-1000)
  else if bool_decide (gameWinner = Some Draw) then Some 0
  else
    scoreBoards player (Local.boards s) (Local.mainBoard s) (seqZ 0 9)
      (fold_left (scoreLine 10 player (Local.mainBoard s)) WINNING_COMBINATIONS 0).

(** The empty cells of one sub-board, in increasing [cellIndex]; a missing
    sub-board is a [TypeError]. *)
Definition boardMoves (boards : list (list Cell)) (boardIndex : Z)
  : option (list Move) :=
  match idx boards boardIndex with
  | None => None
  | Some row =>
      Some (map (λ cellIndex, (boardIndex, cellIndex))
                (filter (λ cellIndex, is_null (idx row cellIndex) = true) (seqZ 0 9)))
  end.

(** The empty cells of every unresolved sub-board, in increasing
    [boardIndex]. *)
Fixpoint allMoves (boards : list (list Cell)) (mainBoard : list Cell)
    (indices : list Z) : option (list Move) :=
  match indices with
  | [] => Some []
  | boardIndex :: rest =>
      if is_null (idx mainBoard boardIndex) then
        here ← boardMoves boards boardIndex;
        later ← allMoves boards mainBoard rest;
        Some (here ++ later)
      else allMoves boards mainBoard rest
  end.

(** The list [validMoves] that a node of [minimax] builds. *)
Definition validMoves (boards : list (list Cell)) (mainBoard : list Cell)
    (nextBoardIndex : Z) : option (list Move) :=
  if negb (nextBoardIndex =? -1) then
    if is_null (idx mainBoard nextBoardIndex)
    then boardMoves boards nextBoardIndex
    else allMoves boards mainBoard (seqZ 0 9)
  else allMoves boards mainBoard (seqZ 0 9).

(** A simulated move of [mover]: [newBoards], [newMainBoard] and
    [newNextBoardIndex] of the loop bodies of [minimax]. *)
Definition simulate (boards : list (list Cell)) (mainBoard : list Cell)
    (mover : Symbol) (mv : Move)
  : option (list (list Cell) * list Cell * Z) :=
  let '(boardIndex, cellIndex) := mv in
  match idx boards boardIndex with
  | None => None
  | Some row =>
      let row1 := setIdx row cellIndex (Some (Sym mover)) in
      let newBoards := setIdx boards boardIndex row1 in
      let newMainBoard :=
        match checkBoardWinner row1 with
        | Some boardWinner => setIdx mainBoard boardIndex (Some boardWinner)
        | None => mainBoard
        end in
      let newNextBoardIndex :=
        if is_null (idx newMainBoard cellIndex) then cellIndex else -1 in
      Some (newBoards, newMainBoard, newNextBoardIndex)
  end.

(** The loop of a maximizing node: [child mv alpha beta] is the recursive
    call for the move [mv]. *)
Fixpoint maxLoop (child : Move → Num → Num → option Result) (moves : list Move)
    (alpha beta maxEval : Num) (bestMove : option Move) : option Result :=
  match moves with
  | [] => Some {| score := maxEval; move := bestMove |}
  | mv :: rest =>
      evalResult ← child mv alpha beta;
      let better := ltb maxEval (score evalResult) in
      let maxEval1 := if better then score evalResult else maxEval in
      let bestMove1 := if better then Some mv else bestMove in
      let alpha1 := max alpha (score evalResult) in
      if leb beta alpha1 then Some {| score := maxEval1; move := bestMove1 |}
      else maxLoop child rest alpha1 beta maxEval1 bestMove1
  end.

(** The loop of a minimizing node. *)
Fixpoint minLoop (child : Move → Num → Num → option Result) (moves : list Move)
    (alpha beta minEval : Num) (bestMove : option Move) : option Result :=
  match moves with
  | [] => Some {| score := minEval; move := bestMove |}
  | mv :: rest =>
      evalResult ← child mv alpha beta;
      let better := ltb (score evalResult) minEval in
      let minEval1 := if better then score evalResult else minEval in
      let bestMove1 := if better then Some mv else bestMove in
      let beta1 := min beta (score evalResult) in
      if leb beta1 alpha then Some {| score := minEval1; move := bestMove1 |}
      else minLoop child rest alpha beta1 minEval1 bestMove1
  end.

(** [minimax]; [s] holds the state cells of the component, which
    [evaluateBoard] reads, and [depth] is a natural number, as the depth
    slider (1 to 8) provides. *)
Fixpoint minimax (s : Local.State) (depth : nat) (alpha beta : Num)
    (isMaximizing : bool) (player : Symbol)
    (currentBoards : list (list Cell)) (currentMainBoard : list Cell)
    (currentNextBoardIndex : Z) {struct depth} : option Result :=
  let gameWinner := checkBoardWinner currentMainBoard in
  if bool_decide (gameWinner = Some (Sym player))
  then Some {| score := Fin (100 + Z.of_nat depth); move := None |}
  else if bool_decide (gameWinner = Some (Sym (other player)))
  then Some {| score := Fin (-100 - Z.of_nat depth); move := None |}
  else if bool_decide (gameWinner = Some Draw)
  then Some {| score := Fin 0; move := None |}
  else
    match depth with
    | 0%nat => v ← evaluateBoard s player; Some {| score := Fin v; move := None |}
    | S depth' =>
        moves ← validMoves currentBoards currentMainBoard currentNextBoardIndex;
        match moves with
        | [] => Some {| score := Fin 0; move := None |}
        | _ =>
            if isMaximizing then
              maxLoop
                (λ mv a b,
                   '(newBoards, newMainBoard, newNextBoardIndex) ←
                     simulate currentBoards currentMainBoard player mv;
                   minimax s depth' a b false player
                           newBoards newMainBoard newNextBoardIndex)
                moves alpha beta NegInf None
            else
              minLoop
                (λ mv a b,
                   '(newBoards, newMainBoard, newNextBoardIndex) ←
                     simulate currentBoards currentMainBoard (other player) mv;
                   minimax s depth' a b true player
                           newBoards newMainBoard newNextBoardIndex)
                moves alpha beta PosInf None
        end
    end.

(** The call of [makeAIMove]. *)
Definition aiMove (s : Local.State) (aiDepth : nat) (aiPlayer : Symbol)
  : option Result :=
  minimax s aiDepth NegInf PosInf true aiPlayer
          (Local.boards s) (Local.mainBoard s) (Local.nextBoardIndex s).

(** *** The reference: full minimax without pruning

    The same move tree (same terminal tests, same move generation and
    order, same simulated moves) and the same leaf evaluation, but every
    child of every node is searched and no window is kept. *)

Fixpoint maxAll (child : Move → option Result) (moves : list Move)
    (maxEval : Num) (bestMove : option Move) : option Result :=
  match moves with
  | [] => Some {| score := maxEval; move := bestMove |}
  | mv :: rest =>
      evalResult ← child mv;
      let better := ltb maxEval (score evalResult) in
      maxAll child rest (if better then score evalResult else maxEval)
             (if better then Some mv else bestMove)
  end.

Fixpoint minAll (child : Move → option Result) (moves : list Move)
    (minEval : Num) (bestMove : option Move) : option Result :=
  match moves with
  | [] => Some {| score := minEval; move := bestMove |}
  | mv :: rest =>
      evalResult ← child mv;
      let better := ltb (score evalResult) minEval in
      minAll child rest (if better then score evalResult else minEval)
             (if better then Some mv else bestMove)
  end.

Fixpoint minimaxUnpruned (s : Local.State) (depth : nat)
    (isMaximizing : bool) (player : Symbol)
    (currentBoards : list (list Cell)) (currentMainBoard : list Cell)
    (currentNextBoardIndex : Z) {struct depth} : option Result :=
  let gameWinner := checkBoardWinner currentMainBoard in
  if bool_decide (gameWinner = Some (Sym player))
  then Some {| score := Fin (100 + Z.of_nat depth); move := None |}
  else if bool_decide (gameWinner = Some (Sym (other player)))
  then Some {| score := Fin (-100 - Z.of_nat depth); move := None |}
  else if bool_decide (gameWinner = Some Draw)
  then Some {| score := Fin 0; move := None |}
  else
    match depth with
    | 0%nat => v ← evaluateBoard s player; Some {| score := Fin v; move := None |}
    | S depth' =>
        moves ← validMoves currentBoards currentMainBoard currentNextBoardIndex;
        match moves with
        | [] => Some {| score := Fin 0; move := None |}
        | _ =>
            if isMaximizing then
              maxAll
                (λ mv,
                   '(newBoards, newMainBoard, newNextBoardIndex) ←
                     simulate currentBoards currentMainBoard player mv;
                   minimaxUnpruned s depth' false player
                                   newBoards newMainBoard newNextBoardIndex)
                moves NegInf None
            else
              minAll
                (λ mv,
                   '(newBoards, newMainBoard, newNextBoardIndex) ←
                     simulate currentBoards currentMainBoard (other player) mv;
                   minimaxUnpruned s depth' true player
                                   newBoards newMainBoard newNextBoardIndex)
                moves PosInf None
        end
    end.

(** The order of numbers as propositions. *)
Definition lt (a b : Num) : Prop := ltb a b = true.
Definition le (a b : Num) : Prop := ltb b a = false.

(** A score cut to the window [(alpha, beta)]. *)
Definition clamp (alpha beta x : Num) : Num := max alpha (min beta x).

(** What a search with window [(alpha, beta)] that returned [r] says about
    the full value [m] of the node: the two are the same once cut to the
    window, so [r] is exact when [m] lies inside the window and is on the
    same side of it as [m] otherwise. *)
Definition agree (alpha beta r m : Num) : Prop :=
  clamp alpha beta r = clamp alpha beta m.

(** A move into a sub-board that exists, as every generated move is. *)
Definition playable (boards : list (list Cell)) (mv : Move) : Prop :=
  is_Some (idx boards mv.1).

(** The state the component holds when its cells are [boards] and
    [mainBoard]; the other cells do not matter to [evaluateBoard]. *)
Definition stateOf (boards : list (list Cell)) (mainBoard : list Cell)
  : Local.State :=
  {| Local.boards := boards; Local.mainBoard := mainBoard;
     Local.currentPlayer := X; Local.nextBoardIndex := -1;
     Local.gameOver := false; Local.winner := None; Local.lastMove := None |}.

End Search.

(** ** The rest of the component: move lists, cell buttons, the AI turn *)

Module Component.

(** [getValidMoves(boardIndex)]: the indices of the empty cells of an
    unresolved sub-board; mapping over a missing sub-board is a
    [TypeError], which is [None]. *)
Definition getValidMoves (s : Local.State) (boardIndex : Z) : option (list Z) :=
  if negb (is_null (idx (Local.mainBoard s) boardIndex)) then Some []
  else
    match idx (Local.boards s) boardIndex with
    | None => None
    | Some row =>
        Some (filter (λ index, index ≠ -1)
                (imap (λ index (cell : Cell),
                         if bool_decide (cell = None) then Z.of_nat index else -1)
                      row))
    end.

(** The loop over the nine sub-boards of [getAllValidMoves]. *)
Fixpoint everyBoard (s : Local.State) (indices : list Z) : option (list (Z * Z)) :=
  match indices with
  | [] => Some []
  | boardIndex :: rest =>
      if is_null (idx (Local.mainBoard s) boardIndex) then
        here ← getValidMoves s boardIndex;
        later ← everyBoard s rest;
        Some (map (λ cellIndex, (boardIndex, cellIndex)) here ++ later)
      else everyBoard s rest
  end.

Definition getAllValidMoves (s : Local.State) : option (list (Z * Z)) :=
  if negb (Local.nextBoardIndex s =? -1) then
    if is_null (idx (Local.mainBoard s) (Local.nextBoardIndex s)) then
      here ← getValidMoves s (Local.nextBoardIndex s);
      Some (map (λ cellIndex, (Local.nextBoardIndex s, cellIndex)) here)
    else everyBoard s (seqZ 0 9)
  else everyBoard s (seqZ 0 9).

(** The cells of the component that are not part of the game. *)
Inductive GameMode := LocalMode | AiMode | MultiplayerMode.

Record Ui := mkUi {
  gameMode : GameMode;
  playAgainstAI : bool;
  aiPlayer : Symbol;
  aiThinking : bool;
  playerSymbol : option Store.PlayerSymbol
}.

#[global] Instance GameMode_eq_dec : EqDecision GameMode.
Proof. solve_decision. Defined.

(** The [disabled] attribute of the button of a cell of sub-board
    [boardIndex], in [renderCell]. *)
Definition cellDisabled (s : Local.State) (ui : Ui) (boardIndex : Z) : bool :=
  Local.gameOver s
  || (negb (Local.nextBoardIndex s =? -1)
      && negb (Local.nextBoardIndex s =? boardIndex)
      && is_null (idx (Local.mainBoard s) (Local.nextBoardIndex s)))
  || negb (is_null (idx (Local.mainBoard s) boardIndex))
  || (bool_decide (gameMode ui = AiMode) && playAgainstAI ui
      && bool_decide (Local.currentPlayer s = aiPlayer ui))
  || aiThinking ui
  || (bool_decide (gameMode ui = MultiplayerMode)
      && (bool_decide (playerSymbol ui = Some Store.Watches)
          || (bool_decide (playerSymbol ui = Some (Store.Plays X))
              && bool_decide (Local.currentPlayer s ≠ X))
          || (bool_decide (playerSymbol ui = Some (Store.Plays O))
              && bool_decide (Local.currentPlayer s ≠ O)))).

(** [makeAIMove] with its timer run: the state after the AI turn, or
    [None] for an uncaught [TypeError]. *)
Definition makeAIMove (s : Local.State) (aiDepth : nat) (aiPlayer : Symbol)
  : option Local.State :=
  if Local.gameOver s || bool_decide (Local.currentPlayer s ≠ aiPlayer) then Some s
  else
    result ← Search.aiMove s aiDepth aiPlayer;
    match Search.move result with
    | Some (boardIndex, cellIndex) =>
        match Local.handleMove s boardIndex cellIndex with
        | (Local.TypeError, _) => None
        | (_, s') => Some s'
        end
    | None => Some s
    end.

End Component.

(** ** The registry of rooms and the two endpoints *)

Module Server.

(** [gameRooms] *)
Abbreviation Registry := (gmap string Room.GameRoom).

(** The body of a POST request, with its fields as the handlers use them. *)
Record Request := mkRequest {
  action : string;
  playerId : string;
  boardIndex : Z;
  cellIndex : Z
}.

Inductive Response :=
| NotFound
| InvalidAction
| Handled (answer : Room.Response)
| PlayerIdRequired
| Created (roomId : string) (room : Room.GameRoom).

(** [GET /api/game/[roomId]]: the room, or 404. *)
Definition GET (rooms : Registry) (roomId : string) : option Room.GameRoom :=
  rooms !! roomId.

(** [POST /api/game/[roomId]].  The handlers change the room object the
    registry holds. *)
Definition POST (rooms : Registry) (roomId : string) (data : Request) (now : Z)
  : Response * Registry :=
  match rooms !! roomId with
  | None => (NotFound, rooms)
  | Some room =>
      if bool_decide (action data = "join") then
        let answer := Room.handleJoinRoom room (playerId data) now in
        (Handled answer.1, <[roomId := answer.2]> rooms)
      else if bool_decide (action data = "move") then
        let answer :=
          Room.handleMakeMove room (playerId data)
                              (boardIndex data) (cellIndex data) now in
        (Handled answer.1, <[roomId := answer.2]> rooms)
      else if bool_decide (action data = "reset") then
        let answer := Room.handleResetGame room (playerId data) now in
        (Handled answer.1, <[roomId := answer.2]> rooms)
      else (InvalidAction, rooms)
  end.

(** [POST /api/game/create]; [roomId] is the random code it draws.  The
    new room takes the place of any room stored under the same code. *)
Definition create (rooms : Registry) (roomId playerId : string) (now : Z)
  : Response * Registry :=
  match Room.createRoom roomId playerId now with
  | None => (PlayerIdRequired, rooms)
  | Some room => (Created roomId room, <[roomId := room]> rooms)
  end.

(** The registries a server that started empty can hold. *)
Inductive reachable : Registry → Prop :=
| reach_start : reachable ∅
| reach_create rooms roomId playerId now :
    reachable rooms → reachable (create rooms roomId playerId now).2
| reach_post rooms roomId data now :
    reachable rooms → reachable (POST rooms roomId data now).2.

End Server.

(** ** The polling client of [src/lib/multiplayer-client.ts] *)

Module Client.

(** The game fields [useMultiplayer] returns for its copy [room] of the
    room, which the component copies into its state cells.  Each is
    [room?.field || fallback]; the number 0 is falsy. *)
Definition view (room : option Room.GameRoom) : Local.State :=
  match room with
  | None => Local.initial
  | Some room =>
      {| Local.boards := Room.boards room;
         Local.mainBoard := Room.mainBoard room;
         Local.currentPlayer := Room.currentPlayer room;
         Local.nextBoardIndex :=
           if Room.nextBoardIndex room =? 0 then -1 else Room.nextBoardIndex room;
         Local.gameOver := Room.gameOver room;
         Local.winner := Room.winner room;
         Local.lastMove := Room.lastMove room |}
  end.

(** One tick of the polling timer for a client that holds [room]:
    [fetched] is the answer of the GET endpoint; a 404 drops the room. *)
Definition poll (room : Room.GameRoom) (fetched : option Room.GameRoom)
  : option Room.GameRoom :=
  match fetched with
  | None => None
  | Some updatedRoom =>
      if Room.lastUpdateTime room <? Room.lastUpdateTime updatedRoom
      then Some updatedRoom else Some room
  end.

End Client.

(** ** Concrete games used below *)

(** Four opening moves after which X can take sub-board 4 at its centre. *)
Definition centreOpening : list (Z * Z) := [(4, 0); (0, 4); (4, 8); (8, 4)].

(** Sixteen moves after which X holds sub-boards 1 and 4 and wins
    sub-board 7, and with it the game, by playing (7, 3). *)
Definition beforeWin : list (Z * Z) :=
  [(4, 3); (3, 7); (7, 0); (0, 4); (4, 0); (0, 1); (1, 8); (8, 1);
   (1, 5); (5, 4); (4, 6); (6, 7); (7, 6); (6, 1); (1, 2); (2, 4)].

(** Forty-three moves after which sub-boards 0 and 6 are drawn and
    sub-board 3 lacks only its cell 4. *)
Definition beforeDrawLine : list (Z * Z) :=
  [(0, 6); (6, 3); (3, 6); (6, 8); (8, 6); (6, 2); (2, 6); (6, 7); (7, 3);
   (3, 3); (3, 5); (5, 3); (3, 8); (8, 0); (0, 0); (0, 3); (3, 1); (1, 0);
   (0, 5); (5, 6); (6, 0); (0, 7); (7, 6); (6, 4); (4, 0); (0, 2); (2, 3);
   (3, 0); (0, 4); (4, 6); (6, 1); (1, 6); (6, 5); (5, 7); (7, 0); (0, 1);
   (1, 3); (3, 7); (6, 6); (0, 8); (8, 3); (3, 2); (2, 0)].


(** ** Predicates used in the statements below *)

(** The mark [m] fills one of the eight winning lines of [board]. *)
Definition holdsLine (board : list Cell) (m : Mark) : Prop :=
  ∃ a b c, (a, b, c) ∈ WINNING_COMBINATIONS
           ∧ idx board a = Some (Some m)
           ∧ idx board b = Some (Some m)
           ∧ idx board c = Some (Some m).

(** The board with the marks of X and O exchanged. *)
Definition swapMark (m : Mark) : Mark :=
  match m with Sym s => Sym (other s) | Draw => Draw end.

Definition swapBoard (board : list Cell) : list Cell := map (fmap swapMark) board.

(** Who is in a room: one or two players, nobody twice, spectators only
    beside two players and never among them. *)
Record membership (players spectators : list string) : Prop := mkMembership {
  mem_count : (1 ≤ length players ≤ 2)%nat;
  mem_players : NoDup players;
  mem_spectators : NoDup spectators;
  mem_apart : ∀ p, p ∈ spectators → p ∉ players;
  mem_full : spectators ≠ [] → length players = 2%nat
}.

(** What the local driver keeps. *)
Record localInvariant (s : Local.State) : Prop := mkLocalInvariant {
  linv_shape : shape (Local.boards s) (Local.mainBoard s);
  linv_winner : Local.gameOver s = true ↔ Local.winner s ≠ None;
  linv_open : Local.gameOver s = false →
              checkBoardWinner (Local.mainBoard s) = None;
  linv_status : ∀ i row, idx (Local.boards s) i = Some row →
                         idx (Local.mainBoard s) i = Some (checkBoardWinner row)
}.

(** The guards of a move on a position: the active-board constraint, an
    unresolved target sub-board and an empty target cell. *)
Definition playableAt (boards : list (list Cell)) (mainBoard : list Cell)
    (nextBoardIndex boardIndex cellIndex : Z) : Prop :=
  (nextBoardIndex ≠ -1 → idx mainBoard nextBoardIndex = Some None →
   boardIndex = nextBoardIndex)
  ∧ idx mainBoard boardIndex = Some None
  ∧ ∃ row, idx boards boardIndex = Some row ∧ idx row cellIndex = Some None.

(** What a store that started empty keeps: rooms are stored under their
    own id, hold the store's participant as their only player, and the
    room the store is in is the one the registry of rooms holds. *)
Record storeInvariant (me : string) (st : Store.State) : Prop := mkStoreInvariant {
  sinv_me : Store.playerId st = me;
  sinv_rooms : ∀ code room, Store.rooms st !! code = Some room →
                            Store.id room = code ∧ Store.players room = [me];
  sinv_current : ∀ room, Store.currentRoom st = Some room →
                         Store.rooms st !! Store.id room = Some room
                         ∧ Store.playerSymbol st = Some (Store.Plays X) ∧ Store.isHost st = true
}.

(** * Properties *)

(** ** Array reads and writes *)

Section Arrays.
Context {A : Type}.
Implicit Types (arr : list A) (i j : Z) (v : A).

Lemma idx_Some_range arr i v :
  idx arr i = Some v → 0 ≤ i < Z.of_nat (length arr).
Proof.
  unfold idx. destruct (Z.leb_spec 0 i) as [Hi|Hi]; [|done].
  intros Hl. apply lookup_lt_Some in Hl. lia.
Qed.

Lemma idx_in_range arr i :
  0 ≤ i < Z.of_nat (length arr) → is_Some (idx arr i).
Proof.
  intros [Hi Hlt]. unfold idx. rewrite (proj2 (Z.leb_le 0 i) Hi).
  apply lookup_lt_is_Some. lia.
Qed.

Lemma idx_out_of_range arr i :
  ¬ (0 ≤ i < Z.of_nat (length arr)) → idx arr i = None.
Proof.
  intros Hout. destruct (idx arr i) eqn:E; [|done].
  apply idx_Some_range in E. lia.
Qed.

Lemma length_setIdx arr i v : length (setIdx arr i v) = length arr.
Proof. unfold setIdx. destruct (0 <=? i); [apply length_insert|done]. Qed.

Lemma idx_setIdx_eq arr i v :
  0 ≤ i < Z.of_nat (length arr) → idx (setIdx arr i v) i = Some v.
Proof.
  intros [Hi Hlt]. unfold idx, setIdx. rewrite (proj2 (Z.leb_le 0 i) Hi).
  apply list_lookup_insert_eq. lia.
Qed.

Lemma idx_setIdx_ne arr i j v :
  i ≠ j → idx (setIdx arr i v) j = idx arr j.
Proof.
  intros Hne. unfold idx, setIdx.
  destruct (Z.leb_spec 0 j) as [Hj|Hj]; [|done].
  destruct (Z.leb_spec 0 i) as [Hi|Hi]; [|done].
  apply list_lookup_insert_ne. lia.
Qed.

Lemma idx_elem_of arr i v : idx arr i = Some v → v ∈ arr.
Proof.
  unfold idx. destruct (0 <=? i); [|done]. apply list_elem_of_lookup_2.
Qed.
End Arrays.

(** A slot that reads [null] lies inside the array, so the write that
    follows such a read replaces an existing slot. *)
Lemma is_null_in_range (arr : list Cell) (i : Z) :
  is_null (idx arr i) = true → idx arr i = Some None.
Proof. destruct (idx arr i) as [[m|]|]; done. Qed.

Lemma is_null_false (arr : list Cell) (i : Z) :
  is_null (idx arr i) = false → idx arr i ≠ Some None.
Proof. destruct (idx arr i) as [[m|]|]; done. Qed.

(** A board with an empty slot is not full, and a full board is resolved. *)
Lemma allFilled_no_null (board : list Cell) (i : Z) :
  idx board i = Some None → allFilled board = false.
Proof.
  intros Hi. apply idx_elem_of in Hi. unfold allFilled.
  apply not_true_is_false. rewrite forallb_forall. intros Hall.
  apply list_elem_of_In, Hall in Hi. by apply bool_decide_eq_true in Hi.
Qed.

Lemma checkBoardWinner_None_not_full (board : list Cell) :
  checkBoardWinner board = None → allFilled board = false.
Proof.
  unfold checkBoardWinner. destruct (firstLine _ _); [done|].
  by destruct (allFilled board).
Qed.

Lemma checkBoardWinner_emptyBoard : checkBoardWinner emptyBoard = None.
Proof. reflexivity. Qed.

(** ** The room driver keeps its invariant *)

Module RoomFacts.
Import Room.

Lemma idx_replicate {A : Type} (n : nat) (x y : A) (i : Z) :
  idx (replicate n x) i = Some y → y = x ∧ 0 ≤ i < Z.of_nat n.
Proof.
  intros Hi. pose proof (idx_Some_range _ _ _ Hi) as Hr.
  rewrite length_replicate in Hr. split; [|done].
  unfold idx in Hi. destruct (0 <=? i); [|done].
  by apply lookup_replicate in Hi as [-> _].
Qed.

Lemma shape_empty : shape emptyBoards emptyBoard.
Proof.
  repeat split; try reflexivity.
  apply Forall_forall. intros row Hrow.
  apply elem_of_replicate in Hrow as [-> _]. reflexivity.
Qed.

Lemma status_empty (i : Z) (row : list Cell) :
  idx emptyBoards i = Some row →
  idx emptyBoard i = Some (checkBoardWinner row).
Proof.
  intros Hi. apply idx_replicate in Hi as [-> Hr].
  destruct (idx_in_range emptyBoard i) as [cell Hcell]; [done|].
  rewrite Hcell. by apply idx_replicate in Hcell as [-> _].
Qed.

Lemma shape_setIdx (bs : list (list Cell)) (mb : list Cell) (b c : Z)
    (row : list Cell) (cell : Cell) :
  shape bs mb → idx bs b = Some row →
  shape (setIdx bs b (setIdx row c cell)) mb.
Proof.
  intros (Hm & Hb & Hrows) Hrow. repeat split; [done| |].
  - by rewrite length_setIdx.
  - unfold setIdx at 1. destruct (0 <=? b); [|done].
    apply Forall_insert; [done|]. rewrite length_setIdx.
    apply idx_elem_of in Hrow. by rewrite Forall_forall in Hrows; apply Hrows.
Qed.

Lemma shape_setIdx_main (bs : list (list Cell)) (mb : list Cell) (b : Z) (cell : Cell) :
  shape bs mb → shape bs (setIdx mb b cell).
Proof. intros (Hm & Hb & Hrows). repeat split; [by rewrite length_setIdx|done..]. Qed.

(** A room in which every sub-board has a status slot never makes the move
    handler read a cell of a missing sub-board. *)
Lemma shape_row (bs : list (list Cell)) (mb : list Cell) (b : Z) :
  shape bs mb → is_Some (idx mb b) → ∃ row, idx bs b = Some row ∧ length row = 9%nat.
Proof.
  intros (Hm & Hb & Hrows) [cell Hcell]. apply idx_Some_range in Hcell.
  destruct (idx_in_range bs b) as [row Hrow]; [lia|]. exists row. split; [done|].
  apply idx_elem_of in Hrow. by rewrite Forall_forall in Hrows; apply Hrows.
Qed.

Lemma invariant_create (roomId playerId : string) (now : Z) (room : GameRoom) :
  createRoom roomId playerId now = Some room → invariant room.
Proof.
  unfold createRoom. case_bool_decide; [done|]. intros [= <-].
  split; simpl.
  - apply shape_empty.
  - lia.
  - split; [done|]. by intros [].
  - done.
  - apply status_empty.
Qed.

Lemma invariant_join (room : GameRoom) (playerId : string) (now : Z) :
  invariant room → invariant (handleJoinRoom room playerId now).2.
Proof.
  intros Hinv. pose proof Hinv as [Hs Hp Hw Hopen Hst]. unfold handleJoinRoom.
  destruct (includes _ _); [done|].
  destruct (Z.leb_spec 2 (Z.of_nat (length (players room)))) as [Hfull|Hroom];
    split; simpl; try done.
  rewrite length_app. simpl. lia.
Qed.

Lemma invariant_reset (room : GameRoom) (playerId : string) (now : Z) :
  invariant room → invariant (handleResetGame room playerId now).2.
Proof.
  intros Hinv. pose proof Hinv as [Hs Hp Hw Hopen Hst]. unfold handleResetGame. case_bool_decide; [done|].
  split; simpl.
  - apply shape_empty.
  - done.
  - split; [done|]. by intros [].
  - done.
  - apply status_empty.
Qed.

Lemma invariant_move (room : GameRoom) (playerId : string)
    (boardIndex cellIndex now : Z) :
  invariant room →
  invariant (handleMakeMove room playerId boardIndex cellIndex now).2.
Proof.
  intros Hinv. pose proof Hinv as [Hs Hp Hw Hopen Hst]. unfold handleMakeMove.
  destruct (_ || _ || _); [done|].
  destruct (gameOver room) eqn:Hover; [done|].
  destruct (_ && _ && _); [done|].
  destruct (is_null (idx (mainBoard room) boardIndex)) eqn:Hmain; [|done]. simpl.
  apply is_null_in_range in Hmain.
  destruct (idx (boards room) boardIndex) as [row|] eqn:Hrow; [|done].
  destruct (is_null (idx row cellIndex)) eqn:Hcell; [|done]. simpl.
  set (row1 := setIdx row cellIndex (Some (Sym (currentPlayer room)))).
  assert (winner room = None) as Hnone.
  { destruct (winner room) eqn:E; [|done].
    assert (false = true) by (apply Hw; done). done. }
  pose proof (idx_Some_range _ _ _ Hmain) as Hbm.
  pose proof (idx_Some_range _ _ _ Hrow) as Hbb.
  split; simpl.
  - destruct (checkBoardWinner row1);
      [apply shape_setIdx_main|]; by apply shape_setIdx.
  - done.
  - rewrite Hnone.
    destruct (checkBoardWinner row1) as [m|]; simpl.
    + destruct (checkBoardWinner (setIdx _ _ _)) eqn:Hgame; simpl; [done|].
      rewrite (checkBoardWinner_None_not_full _ Hgame). split; [done|]. by intros [].
    + rewrite (allFilled_no_null _ _ Hmain). split; [done|]. by intros [].
  - destruct (checkBoardWinner row1) as [m|]; simpl.
    + destruct (checkBoardWinner (setIdx _ _ _)) eqn:Hgame; simpl; [done|].
      by rewrite (checkBoardWinner_None_not_full _ Hgame).
    + rewrite (allFilled_no_null _ _ Hmain). simpl. intros _. by apply Hopen.
  - intros i rowi Hi. destruct (decide (i = boardIndex)) as [->|Hne].
    + rewrite idx_setIdx_eq in Hi by done. injection Hi as <-.
      destruct (checkBoardWinner row1); [by rewrite idx_setIdx_eq|done].
    + rewrite idx_setIdx_ne in Hi by done.
      destruct (checkBoardWinner row1); [rewrite idx_setIdx_ne by done|]; by apply Hst.
Qed.

Lemma reachable_invariant (room : GameRoom) : reachable room → invariant room.
Proof.
  induction 1 as [roomId playerId now room Hc| | |].
  - by eapply invariant_create.
  - by apply invariant_join.
  - by apply invariant_move.
  - by apply invariant_reset.
Qed.

End RoomFacts.

(** ** Invariants of reachable rooms *)

Module RoomClaims.
Import Room RoomFacts.

Lemma reachable_twoPlayers : reachable twoPlayers.
Proof.
  apply reach_join. apply (reach_create "ROOM42" "alice" 0). reflexivity.
Qed.

Lemma reachable_play (moves : list (Z * Z)) (room : GameRoom) (now : Z) :
  reachable room → reachable (play room now moves).
Proof.
  revert room now. induction moves as [|[boardIndex cellIndex] rest IH];
    intros room now Hr; simpl; [done|].
  by apply IH, reach_move.
Qed.

(** C7: in every room the server can hold (created, then driven by joins,
    moves and resets), [gameOver] is true exactly when [winner] is not
    [null]. *)
Theorem gameOver_iff_winner (room : GameRoom) :
  reachable room → (gameOver room = true ↔ winner room ≠ None).
Proof. intros Hr. apply (inv_winner room), reachable_invariant, Hr. Qed.

Lemma gameOver_iff_winner_witness :
  let room := (handleMakeMove (play twoPlayers 2 beforeWin) "alice" 7 3 18).2 in
  reachable room ∧ gameOver room = true ∧ winner room = Some (Sym X)
  ∧ (gameOver room = true ↔ winner room ≠ None).
Proof.
  assert (reachable (handleMakeMove (play twoPlayers 2 beforeWin) "alice" 7 3 18).2)
    as Hr by apply reach_move, reachable_play, reachable_twoPlayers.
  split; [exact Hr|]. split; [reflexivity|]. split; [reflexivity|].
  apply (gameOver_iff_winner _ Hr).
Defined.

(** A join or a move never touches a status that is already set. *)
Lemma advances_keeps_status (room room' : GameRoom) (i : Z) (m : Mark) :
  advances room room' →
  idx (mainBoard room) i = Some (Some m) → idx (mainBoard room') i = Some (Some m).
Proof.
  intros [r playerId now|r playerId boardIndex cellIndex now] Hi.
  - unfold handleJoinRoom. by repeat case_match.
  - unfold handleMakeMove.
    destruct (_ || _ || _); [done|].
    destruct (gameOver r); [done|].
    destruct (_ && _ && _); [done|].
    destruct (is_null (idx (mainBoard r) boardIndex)) eqn:Hmain; [|done]. simpl.
    apply is_null_in_range in Hmain.
    destruct (idx (boards r) boardIndex) as [row|]; [|done].
    destruct (is_null (idx row cellIndex)); [|done]. simpl.
    destruct (checkBoardWinner _); [|done].
    rewrite idx_setIdx_ne; [done|]. intros ->. congruence.
Qed.

(** C8: in every reachable room each [mainBoard[i]] is empty or is the
    evaluation of [boards[i]], and a status that is set keeps its value
    through any further joins and moves (only a reset clears it). *)
Theorem status_matches_and_is_frozen (room : GameRoom) :
  reachable room →
  (∀ i, 0 ≤ i < 9 →
     idx (mainBoard room) i = Some None
     ∨ ∃ row, idx (boards room) i = Some row
              ∧ idx (mainBoard room) i = Some (checkBoardWinner row))
  ∧ (∀ room', rtc advances room room' →
     ∀ i m, idx (mainBoard room) i = Some (Some m) →
            idx (mainBoard room') i = Some (Some m)).
Proof.
  intros Hr. pose proof (reachable_invariant _ Hr) as [Hs _ _ _ Hst]. split.
  - intros i Hi. right. destruct Hs as (_ & Hb & _).
    destruct (idx_in_range (boards room) i) as [row Hrow]; [lia|].
    exists row. split; [done|]. by apply Hst.
  - intros room' Hsteps. clear Hr Hs Hst.
    induction Hsteps as [r|r1 r2 r3 Hstep _ IH]; intros i m Hi; [done|].
    eapply IH, advances_keeps_status; done.
Qed.

Lemma status_matches_and_is_frozen_witness :
  let room := play twoPlayers 2 (centreOpening ++ [(4, 4)]) in
  let room' := play room 7 [(4, 1); (1, 7); (7, 0)] in
  reachable room
  ∧ idx (mainBoard room) 4 = Some (Some (Sym X))
  ∧ idx (mainBoard room') 4 = Some (Some (Sym X)).
Proof.
  assert (reachable (play twoPlayers 2 (centreOpening ++ [(4, 4)]))) as Hr
    by apply reachable_play, reachable_twoPlayers.
  split; [exact Hr|]. split; [reflexivity|].
  apply (proj2 (status_matches_and_is_frozen _ Hr)); [|reflexivity].
  eapply rtc_l; [apply (adv_move _ "bob" 4 1 7)|].
  eapply rtc_l; [apply (adv_move _ "bob" 1 7 8)|].
  eapply rtc_l; [apply (adv_move _ "alice" 7 0 9)|].
  apply rtc_refl.
Defined.

(** C10: a move request whose [boardIndex] or [cellIndex] is outside
    [0..8] is answered with an error, and the room stays as it was. *)
Theorem out_of_bounds_move_rejected (room : GameRoom) (playerId : string)
    (boardIndex cellIndex now : Z) :
  reachable room →
  ¬ (0 ≤ boardIndex ≤ 8 ∧ 0 ≤ cellIndex ≤ 8) →
  ∃ error, handleMakeMove room playerId boardIndex cellIndex now
           = (RError error, room).
Proof.
  intros Hr Hout. pose proof (reachable_invariant _ Hr) as [Hs _ _ _ _].
  unfold handleMakeMove.
  destruct (_ || _ || _); [by eexists|].
  destruct (gameOver room); [by eexists|].
  destruct (_ && _ && _); [by eexists|].
  destruct (is_null (idx (mainBoard room) boardIndex)) eqn:Hmain; [|by eexists].
  simpl. apply is_null_in_range in Hmain.
  destruct (shape_row _ _ boardIndex Hs) as (row & -> & Hlen); [by eexists|].
  apply idx_Some_range in Hmain. destruct Hs as (Hm & _). rewrite Hm in Hmain.
  rewrite (idx_out_of_range row cellIndex) by lia. by eexists.
Qed.

Lemma out_of_bounds_move_rejected_witness :
  reachable twoPlayers
  ∧ handleMakeMove twoPlayers "alice" 9 0 2 = (RError "Board already won", twoPlayers)
  ∧ handleMakeMove twoPlayers "alice" 0 (-1) 2 = (RError "Cell already filled", twoPlayers)
  ∧ ∃ error, handleMakeMove twoPlayers "alice" 4 9 2 = (RError error, twoPlayers).
Proof.
  split; [apply reachable_twoPlayers|]. split; [reflexivity|]. split; [reflexivity|].
  apply (out_of_bounds_move_rejected twoPlayers "alice" 4 9 2).
  - apply reachable_twoPlayers.
  - lia.
Defined.

End RoomClaims.

(** ** Rejected and accepted move requests *)

Module MoveClaims.
Import Room RoomFacts RoomClaims.

Lemma indexOf_range (l : list string) (x : string) :
  -1 ≤ indexOf l x < Z.of_nat (length l).
Proof.
  induction l as [|y rest IH]; simpl; [lia|].
  case_bool_decide; [lia|].
  destruct (Z.eqb_spec (indexOf rest x) (-1)); lia.
Qed.

Lemma indexOf_includes (l : list string) (x : string) :
  includes l x = true ↔ indexOf l x ≠ -1.
Proof.
  unfold includes. rewrite bool_decide_eq_true.
  induction l as [|y rest IH]; simpl.
  - split; [by intros ?%elem_of_nil|done].
  - rewrite elem_of_cons. case_bool_decide as Hy.
    + split; [done|]. intros _. by left.
    + pose proof (indexOf_range rest x).
      destruct (Z.eqb_spec (indexOf rest x) (-1)) as [Heq|Hne].
      * split; [|done]. intros [->|Hin]; [done|]. by apply IH in Hin.
      * split; [lia|]. intros _. right. by apply IH.
Qed.

(** The turn guard of the move handler lets through exactly the requests of
    the participant who holds the symbol to move. *)
Lemma turn_guard_spec (room : GameRoom) (playerId : string) :
  (length (players room) ≤ 2)%nat →
  (indexOf (players room) playerId =? -1)
  || ((indexOf (players room) playerId =? 0) && bool_decide (currentPlayer room ≠ X))
  || ((indexOf (players room) playerId =? 1) && bool_decide (currentPlayer room ≠ O))
  = false
  ↔ symbolOf room playerId = Some (currentPlayer room).
Proof.
  intros Hlen. unfold symbolOf.
  pose proof (indexOf_range (players room) playerId) as Hrange.
  pose proof (indexOf_includes (players room) playerId) as Hinc.
  destruct (Z.eqb_spec (indexOf (players room) playerId) (-1)) as [Hi|Hi]; simpl.
  - destruct (includes _ _); [|done]. by destruct (proj1 Hinc).
  - rewrite (proj2 Hinc Hi).
    destruct (Z.eqb_spec (indexOf (players room) playerId) 0) as [H0|H0]; simpl.
    + rewrite H0. simpl. destruct (currentPlayer room); by case_bool_decide.
    + assert (indexOf (players room) playerId = 1) as -> by lia. simpl.
      destruct (currentPlayer room); by case_bool_decide.
Qed.

(** The board guard lets through exactly the moves that respect the
    active-board constraint. *)
Lemma board_guard_spec (room : GameRoom) (boardIndex : Z) :
  negb (nextBoardIndex room =? -1)
  && negb (nextBoardIndex room =? boardIndex)
  && is_null (idx (mainBoard room) (nextBoardIndex room)) = false
  ↔ (nextBoardIndex room ≠ -1 →
     idx (mainBoard room) (nextBoardIndex room) = Some None →
     boardIndex = nextBoardIndex room).
Proof.
  destruct (Z.eqb_spec (nextBoardIndex room) (-1)) as [Hn|Hn]; simpl; [done|].
  destruct (Z.eqb_spec (nextBoardIndex room) boardIndex) as [Hb|Hb]; simpl; [done|].
  destruct (idx (mainBoard room) (nextBoardIndex room)) as [[m|]|]; simpl;
    split; try done.
  intros Hb'. by destruct Hb; symmetry; apply Hb'.
Qed.

(** C6: the move handler answers a request with a structured error, without
    throwing and with the room untouched, exactly when the move is illegal
    (game over, wrong board under an unresolved [nextBoardIndex], resolved
    target sub-board, or non-empty target cell) or the requester does not
    hold the symbol to move; otherwise it answers success and the game
    state has changed. *)
Theorem move_rejected_iff_illegal (room : GameRoom) (playerId : string)
    (boardIndex cellIndex now : Z) :
  reachable room →
  let answer := handleMakeMove room playerId boardIndex cellIndex now in
  (isLegal room boardIndex cellIndex
   ∧ symbolOf room playerId = Some (currentPlayer room) →
   answer.1 = RSuccess ∧ gameState answer.2 ≠ gameState room)
  ∧ (¬ (isLegal room boardIndex cellIndex
        ∧ symbolOf room playerId = Some (currentPlayer room)) →
     (∃ error, answer.1 = RError error) ∧ answer.2 = room).
Proof.
  intros Hr. pose proof (reachable_invariant _ Hr) as [Hs Hp _ _ _].
  pose proof (turn_guard_spec room playerId Hp) as Hturn.
  pose proof (board_guard_spec room boardIndex) as Hboard.
  unfold isLegal. simpl. unfold handleMakeMove.
  destruct (_ || _ || _).
  { split; [|by eauto]. intros (_ & Hsym). apply Hturn in Hsym. done. }
  destruct (gameOver room).
  { split; [|by eauto]. by intros ((? & _) & _). }
  destruct (_ && _ && _).
  { split; [|by eauto]. intros ((_ & Hb & _) & _). by apply Hboard in Hb. }
  destruct (is_null (idx (mainBoard room) boardIndex)) eqn:Hmain; simpl.
  2:{ split; [|by eauto]. intros ((_ & _ & Hm & _) & _). by rewrite Hm in Hmain. }
  apply is_null_in_range in Hmain.
  destruct (shape_row _ _ boardIndex Hs) as (row & Hrow & Hlen); [by eexists|].
  rewrite Hrow.
  destruct (is_null (idx row cellIndex)) eqn:Hcell; simpl.
  2:{ split; [|by eauto]. intros ((_ & _ & _ & row' & [= <-] & Hc) & _).
      by rewrite Hc in Hcell. }
  apply is_null_in_range in Hcell. split.
  - intros _. split; [done|]. intros Heq.
    apply (f_equal Local.boards) in Heq. simpl in Heq.
    apply (f_equal (λ bs, idx bs boardIndex)) in Heq. simpl in Heq.
    rewrite idx_setIdx_eq, Hrow in Heq by (by eapply idx_Some_range).
    injection Heq as Heq.
    apply (f_equal (λ r, idx r cellIndex)) in Heq. simpl in Heq.
    rewrite idx_setIdx_eq, Hcell in Heq by (by eapply idx_Some_range).
    done.
  - intros Hnot. destruct Hnot. split; [|by apply Hturn].
    split; [done|]. split; [by apply Hboard|]. split; [done|]. by exists row.
Qed.

Lemma move_rejected_iff_illegal_witness :
  reachable twoPlayers
  ∧ (isLegal twoPlayers 4 4 ∧ symbolOf twoPlayers "alice" = Some (currentPlayer twoPlayers))
  ∧ (handleMakeMove twoPlayers "alice" 4 4 2).1 = RSuccess
  ∧ gameState (handleMakeMove twoPlayers "alice" 4 4 2).2 ≠ gameState twoPlayers.
Proof.
  assert (isLegal twoPlayers 4 4
          ∧ symbolOf twoPlayers "alice" = Some (currentPlayer twoPlayers)) as Hlegal.
  { split; [|reflexivity]. split; [reflexivity|]. split; [done|].
    split; [reflexivity|]. exists emptyBoard. split; reflexivity. }
  split; [apply reachable_twoPlayers|]. split; [exact Hlegal|].
  apply (proj1 (move_rejected_iff_illegal twoPlayers "alice" 4 4 2
                  reachable_twoPlayers) Hlegal).
Defined.

End MoveClaims.

(** ** The store agrees with the room driver *)

Module StoreFacts.
Import RoomFacts MoveClaims.

(** The turn guard of the store lets through exactly the holder of the
    symbol to move. *)
Lemma store_turn_guard (ps : option Store.PlayerSymbol) (cur : Symbol) :
  bool_decide (ps ≠ Some (Store.Plays cur)) || bool_decide (ps = Some Store.Watches)
  = false
  ↔ ps = Some (Store.Plays cur).
Proof.
  repeat case_bool_decide; simpl; split; try done; congruence.
Qed.

Lemma same_when_false (a b : bool) : (a = false ↔ b = false) → a = b.
Proof. destruct a, b; intros [Hab Hba]; try done; [by rewrite Hba|by rewrite Hab]. Qed.

(** On a room the server can hold, the store's [makeMove] accepts exactly
    the requests that [handleMakeMove] accepts, and produces the same
    game state with the same time stamp. *)
Lemma store_makeMove_matches_room (room : Room.GameRoom) (st : Store.State)
    (held : Store.GameRoom) (playerId : string) (boardIndex cellIndex now : Z) :
  Room.reachable room →
  Store.currentRoom st = Some held →
  Store.gameState held = Room.gameState room →
  (∀ s, Store.playerSymbol st = Some (Store.Plays s)
        ↔ Room.symbolOf room playerId = Some s) →
  let served := Room.handleMakeMove room playerId boardIndex cellIndex now in
  let stored := Store.makeMove st boardIndex cellIndex now in
  (served.1 ≠ Room.RSuccess → stored = (Store.Returned false, st))
  ∧ (served.1 = Room.RSuccess →
     stored.1 = Store.Returned true
     ∧ ∃ held', Store.currentRoom stored.2 = Some held'
                ∧ Store.gameState held' = Room.gameState served.2
                ∧ Store.lastUpdateTime held' = Room.lastUpdateTime served.2).
Proof.
  intros Hr Hheld Hsame Hsym.
  pose proof (reachable_invariant _ Hr) as [Hs Hp _ Hopen _].
  pose proof (turn_guard_spec room playerId Hp) as Hturn.
  pose proof (same_when_false _ _
                (iff_trans
                   (store_turn_guard (Store.playerSymbol st) (Room.currentPlayer room))
                   (iff_trans (Hsym _) (iff_sym Hturn)))) as Hturn'.
  destruct held as [hid hplayers hcur hboards hmain hnext hover hwinner hlast htime].
  injection Hsame as -> -> -> -> -> -> ->.
  unfold Room.handleMakeMove, Store.makeMove. rewrite Hheld. simpl.
  rewrite Hturn'. destruct (_ || _ || _); [done|].
  destruct (Room.gameOver room) eqn:Hover; [done|].
  destruct (_ && _ && _); [done|].
  destruct (is_null (idx (Room.mainBoard room) boardIndex)) eqn:Hmain; [|done]. simpl.
  apply is_null_in_range in Hmain.
  destruct (shape_row _ _ boardIndex Hs) as (row & -> & _); [by eexists|].
  destruct (is_null (idx row cellIndex)); [|done]. simpl.
  split; [done|]. intros _. split; [done|]. eexists. split; [done|].
  unfold Store.gameState, Room.gameState. simpl.
  destruct (checkBoardWinner (setIdx row cellIndex _)); [done|].
  by rewrite (Hopen eq_refl).
Qed.

End StoreFacts.

(** ** The two drivers compared *)

Module DriverClaims.
Import Room RoomFacts RoomClaims.

Lemma local_reachable_play (moves : list (Z * Z)) (s : Local.State) :
  Local.reachable s → Local.reachable (Local.play s moves).
Proof.
  revert s. induction moves as [|[boardIndex cellIndex] rest IH]; intros s Hs;
    simpl; [done|].
  by apply IH, Local.reach_move.
Qed.

(** While the game is not over the main board has an empty slot ... *)
Lemma local_open_board (s : Local.State) :
  Local.reachable s →
  Local.gameOver s = false → allFilled (Local.mainBoard s) = false.
Proof.
  induction 1 as [|s boardIndex cellIndex Hs IH|s Hs IH|s Hs IH]; [done| | |done].
  - unfold Local.handleMove.
    destruct (Local.gameOver s) eqn:Hover; [simpl; congruence|].
    destruct (_ && _ && _); [simpl; intros _; by apply IH|].
    destruct (is_null (idx (Local.mainBoard s) boardIndex)) eqn:Hmain;
      [|simpl; intros _; by apply IH]. simpl.
    apply is_null_in_range in Hmain.
    destruct (idx (Local.boards s) boardIndex) as [row|];
      [|simpl; intros _; by apply IH].
    destruct (is_null (idx row cellIndex)); [|simpl; intros _; by apply IH]. simpl.
    destruct (checkBoardWinner (setIdx row cellIndex _)) as [m|]; simpl.
    + destruct (checkBoardWinner (setIdx _ _ _)) eqn:Hgame; simpl; [done|].
      intros _. by apply checkBoardWinner_None_not_full.
    + intros _. by eapply allFilled_no_null.
  - unfold Local.drawEffect.
    destruct (negb (Local.gameOver s) && allFilled (Local.mainBoard s)); [done|].
    by apply IH.
Qed.

(** ... so the effect that declares a draw on a full main board finds
    nothing to do: [handleMove] has already ended such a game. *)
Lemma drawEffect_idle (s : Local.State) :
  Local.reachable s → Local.drawEffect s = s.
Proof.
  intros Hs. unfold Local.drawEffect.
  destruct (Local.gameOver s) eqn:Hover; [done|].
  by rewrite (local_open_board s Hs Hover).
Qed.

(** Refutes C1 as stated: after the sixteen moves of [beforeWin], which
    both drivers accept and which leave them in the same state, X plays
    (7, 3) and wins the game; [handleMove] returns right after
    [setGameOver(true)] and leaves [currentPlayer] at X, while
    [handleMakeMove] goes on and hands the turn to O. *)
Lemma drivers_differ_on_winning_move :
  ¬ (∀ room playerId boardIndex cellIndex now,
       reachable room → Local.reachable (gameState room) →
       (handleMakeMove room playerId boardIndex cellIndex now).1 = RSuccess →
       (Local.handleMove (gameState room) boardIndex cellIndex).2
       = gameState (handleMakeMove room playerId boardIndex cellIndex now).2).
Proof.
  intros Hagree.
  specialize (Hagree (play twoPlayers 2 beforeWin) "alice" 7 3 18).
  assert (Local.play Local.initial beforeWin
          = gameState (play twoPlayers 2 beforeWin)) as Hsame by reflexivity.
  apply (f_equal Local.currentPlayer) in Hagree.
  - vm_compute in Hagree. discriminate Hagree.
  - apply reachable_play, reachable_twoPlayers.
  - rewrite <- Hsame. apply local_reachable_play, Local.reach_initial.
  - reflexivity.
Qed.

(** C1, amended: for every move request the room driver accepts,
    [handleMove] on the same game state applies the move too and yields
    the same [boards], [mainBoard], [gameOver], [winner] and [lastMove];
    when the move does not end the game the resulting [currentPlayer] is
    the same as well, and so is [nextBoardIndex] unless the move resolves
    the sub-board whose index is its own [cellIndex]; when the move ends
    the game, [handleMove] leaves [currentPlayer] and [nextBoardIndex] as
    they were, while [handleMakeMove] still switches the player. *)
Theorem drivers_agree_up_to_turn_at_game_end (room : GameRoom)
    (playerId : string) (boardIndex cellIndex now : Z) :
  (handleMakeMove room playerId boardIndex cellIndex now).1 = RSuccess →
  let served := (handleMakeMove room playerId boardIndex cellIndex now).2 in
  let clicked := Local.handleMove (gameState room) boardIndex cellIndex in
  clicked.1 = Local.Applied
  ∧ Local.boards clicked.2 = boards served
  ∧ Local.mainBoard clicked.2 = mainBoard served
  ∧ Local.gameOver clicked.2 = gameOver served
  ∧ Local.winner clicked.2 = winner served
  ∧ Local.lastMove clicked.2 = lastMove served
  ∧ (gameOver served = false →
     Local.currentPlayer clicked.2 = currentPlayer served
     ∧ (boardIndex ≠ cellIndex ∨ idx (mainBoard served) boardIndex = Some None →
        Local.nextBoardIndex clicked.2 = nextBoardIndex served))
  ∧ (gameOver served = true →
     Local.currentPlayer clicked.2 = currentPlayer room
     ∧ Local.nextBoardIndex clicked.2 = nextBoardIndex room
     ∧ currentPlayer served = other (currentPlayer room)).
Proof.
  unfold handleMakeMove, Local.handleMove. simpl.
  destruct (_ || _ || _); [done|].
  destruct (gameOver room) eqn:Hover; [done|].
  destruct (_ && _ && _); [done|].
  destruct (is_null (idx (mainBoard room) boardIndex)) eqn:Hmain; [|done]. simpl.
  apply is_null_in_range in Hmain.
  destruct (idx (boards room) boardIndex) as [row|]; [|done].
  destruct (is_null (idx row cellIndex)); [|done]. simpl. intros _.
  destruct (checkBoardWinner (setIdx row cellIndex _)) as [m|]; simpl.
  - destruct (checkBoardWinner (setIdx (mainBoard room) boardIndex (Some m)))
      as [w|] eqn:Hgame; simpl.
    + repeat split; done.
    + rewrite (checkBoardWinner_None_not_full _ Hgame). simpl.
      repeat split; try done.
      intros [Hne|Hnull].
      * by rewrite idx_setIdx_ne.
      * rewrite idx_setIdx_eq in Hnull by (by eapply idx_Some_range). done.
  - rewrite (allFilled_no_null _ _ Hmain). simpl. repeat split; done.
Qed.

Lemma drivers_agree_up_to_turn_at_game_end_witness :
  let room := play twoPlayers 2 beforeWin in
  let served := (handleMakeMove room "alice" 7 3 18).2 in
  let clicked := Local.handleMove (gameState room) 7 3 in
  (handleMakeMove room "alice" 7 3 18).1 = RSuccess
  ∧ Local.winner clicked.2 = winner served
  ∧ gameOver served = true.
Proof.
  split; [reflexivity|]. split; [|reflexivity].
  apply (drivers_agree_up_to_turn_at_game_end
           (play twoPlayers 2 beforeWin) "alice" 7 3 18).
  reflexivity.
Defined.

(** The room driver routes by the status after the move, whatever the
    move ... *)
Lemma room_routing_reads_new_status (room : GameRoom) (playerId : string)
    (boardIndex cellIndex now : Z) :
  (handleMakeMove room playerId boardIndex cellIndex now).1 = RSuccess →
  let served := (handleMakeMove room playerId boardIndex cellIndex now).2 in
  nextBoardIndex served
  = (if is_null (idx (mainBoard served) cellIndex) then cellIndex else -1)
  ∧ currentPlayer served = other (currentPlayer room).
Proof.
  unfold handleMakeMove.
  destruct (_ || _ || _); [done|].
  destruct (gameOver room); [done|].
  destruct (_ && _ && _); [done|].
  destruct (is_null (idx (mainBoard room) boardIndex)); [|done]. simpl.
  destruct (idx (boards room) boardIndex) as [row|]; [|done].
  by destruct (is_null (idx row cellIndex)).
Qed.

(** ... and both drivers agree on the opening scenario: X plays (4, 4) on
    the empty board. *)
Lemma opening_centre_scenario :
  let served := (handleMakeMove twoPlayers "alice" 4 4 2).2 in
  let clicked := (Local.handleMove Local.initial 4 4).2 in
  idx (mainBoard served) 4 = Some None
  ∧ nextBoardIndex served = 4 ∧ currentPlayer served = O
  ∧ idx (Local.mainBoard clicked) 4 = Some None
  ∧ Local.nextBoardIndex clicked = 4 ∧ Local.currentPlayer clicked = O.
Proof. repeat split; reflexivity. Qed.

(** C5, at the input where [handleMove] departs from it: after
    [centreOpening] X completes the diagonal of sub-board 4 with its centre
    cell, (4, 4).  The move is applied, the game goes on, and
    [mainBoard[4]] is now X; [handleMove] still reads the status from
    before the move and sets [nextBoardIndex] to 4, where the rule, and
    the room driver on the same input, give -1. *)
Theorem local_routing_reads_old_status :
  let s := Local.play Local.initial centreOpening in
  let clicked := Local.handleMove s 4 4 in
  let served := handleMakeMove (play twoPlayers 2 centreOpening) "alice" 4 4 6 in
  Local.reachable s
  ∧ s = gameState (play twoPlayers 2 centreOpening)
  ∧ clicked.1 = Local.Applied
  ∧ Local.gameOver clicked.2 = false
  ∧ idx (Local.mainBoard clicked.2) 4 = Some (Some (Sym X))
  ∧ Local.nextBoardIndex clicked.2 = 4
  ∧ served.1 = RSuccess
  ∧ idx (mainBoard served.2) 4 = Some (Some (Sym X))
  ∧ nextBoardIndex served.2 = -1.
Proof.
  split; [apply local_reachable_play, Local.reach_initial|].
  repeat split; reflexivity.
Qed.

(** C3, at the input where the code departs from it: a line of three
    draws is returned by the evaluator as if it were a winning triple, and
    in the room reached by [beforeDrawLine] the move (3, 4) of O, which
    fills sub-board 3 and so completes the column 0-3-6 of drawn
    sub-boards, ends the game although sub-boards 1, 4, 5 and 8 are
    unresolved. *)
Theorem line_of_draws_ends_game :
  let room := play twoPlayers 2 beforeDrawLine in
  let served := handleMakeMove room "bob" 3 4 45 in
  checkBoardWinner
    [Some Draw; Some Draw; Some Draw; None; None; None; None; None; None]
  = Some Draw
  ∧ reachable room
  ∧ gameOver room = false
  ∧ mainBoard room
    = [Some Draw; None; Some (Sym X); None; None; None;
       Some Draw; Some (Sym X); None]
  ∧ served.1 = RSuccess
  ∧ mainBoard served.2
    = [Some Draw; None; Some (Sym X); Some Draw; None; None;
       Some Draw; Some (Sym X); None]
  ∧ gameOver served.2 = true
  ∧ winner served.2 = Some Draw
  ∧ Local.gameOver (Local.handleMove (gameState room) 3 4).2 = true.
Proof.
  split; [reflexivity|].
  split; [apply reachable_play, reachable_twoPlayers|].
  repeat split; reflexivity.
Qed.

(** Accepted moves, accepted resets and the join of a second player stamp
    the room with the current time. *)
Lemma accepted_requests_stamp (room : GameRoom) (playerId : string)
    (boardIndex cellIndex now : Z) :
  ((handleMakeMove room playerId boardIndex cellIndex now).1 = RSuccess →
   lastUpdateTime (handleMakeMove room playerId boardIndex cellIndex now).2 = now)
  ∧ ((handleResetGame room playerId now).1 = RSuccess →
     lastUpdateTime (handleResetGame room playerId now).2 = now)
  ∧ (includes (players room) playerId = false →
     (length (players room) < 2)%nat →
     (handleJoinRoom room playerId now).1 = RJoined (JoinedAs O) false
     ∧ lastUpdateTime (handleJoinRoom room playerId now).2 = now).
Proof.
  split; [|split].
  - unfold handleMakeMove. by repeat case_match.
  - unfold handleResetGame. by case_match.
  - unfold handleJoinRoom. intros -> Hlen.
    destruct (Z.leb_spec 2 (Z.of_nat (length (players room)))); [lia|done].
Qed.

(** C9, at the input where the code departs from it: when ["carol"] joins
    the full room at time 50 she is added to [spectators], and
    [lastUpdateTime] keeps the value 1 of the previous request. *)
Theorem spectator_join_keeps_old_timestamp :
  let joined := handleJoinRoom twoPlayers "carol" 50 in
  reachable twoPlayers
  ∧ joined.1 = RJoined Spectator false
  ∧ spectators twoPlayers = []
  ∧ spectators joined.2 = ["carol"]
  ∧ lastUpdateTime joined.2 = 1.
Proof. split; [apply reachable_twoPlayers|]. repeat split; reflexivity. Qed.

End DriverClaims.

(** ** The adversarial search *)

Module SearchClaims.
Import Search RoomFacts.

(** Decides facts about the order of numbers by cases on the numbers. *)
Ltac num_order :=
  intros;
  unfold agree, clamp, lt, le, leb, max, min in *;
  repeat match goal with x : Num |- _ => destruct x end;
  simpl in *; try done;
  repeat (match goal with
          | H : context [Z.ltb ?a ?b] |- _ => destruct (Z.ltb_spec a b)
          | |- context [Z.ltb ?a ?b] => destruct (Z.ltb_spec a b)
          end; simpl in *; try done);
  repeat match goal with
         | H : Fin _ = Fin _ |- _ => injection H as H
         end;
  repeat split; try done; try (f_equal; lia); try lia.

Lemma agree_refl (alpha beta r : Num) : agree alpha beta r r.
Proof. done. Qed.

Lemma agree_full_window (r m : Num) : agree NegInf PosInf r m → r = m.
Proof. num_order. Qed.

Lemma max_assoc (a b c : Num) : max (max a b) c = max a (max b c).
Proof. num_order. Qed.

Lemma min_assoc (a b c : Num) : min (min a b) c = min a (min b c).
Proof. num_order. Qed.

Lemma max_step (a beta r m : Num) :
  lt a beta → agree a beta r m → leb beta (max a r) = false →
  max a r = max a m ∧ lt (max a r) beta.
Proof. num_order. Qed.

Lemma max_cut (a beta r m : Num) :
  lt a beta → agree a beta r m → leb beta (max a r) = true →
  le beta r ∧ le beta m.
Proof. num_order. Qed.

Lemma max_exit (alpha beta e E : Num) :
  max alpha e = max alpha E → lt (max alpha e) beta → agree alpha beta e E.
Proof. num_order. Qed.

Lemma above_agree (alpha beta x y : Num) :
  le beta x → le beta y → agree alpha beta x y.
Proof. num_order. Qed.

Lemma le_max_r (a b c : Num) : le a c → le a (max b c).
Proof. num_order. Qed.
Lemma le_max_l (a b c : Num) : le a b → le a (max b c).
Proof. num_order. Qed.
Lemma le_trans (a b c : Num) : le a b → le b c → le a c.
Proof. num_order. Qed.
Lemma le_refl (a : Num) : le a a.
Proof. num_order. Qed.

Lemma min_step (alpha b r m : Num) :
  lt alpha b → agree alpha b r m → leb (min b r) alpha = false →
  min b r = min b m ∧ lt alpha (min b r).
Proof. num_order. Qed.

Lemma min_cut (alpha b r m : Num) :
  lt alpha b → agree alpha b r m → leb (min b r) alpha = true →
  le r alpha ∧ le m alpha.
Proof. num_order. Qed.

Lemma min_exit (alpha beta e E : Num) :
  min beta e = min beta E → lt alpha (min beta e) → agree alpha beta e E.
Proof. num_order. Qed.

Lemma below_agree (alpha beta x y : Num) :
  le x alpha → le y alpha → agree alpha beta x y.
Proof. num_order. Qed.

Lemma min_le_r (a b c : Num) : le c a → le (min b c) a.
Proof. num_order. Qed.
Lemma min_le_l (a b c : Num) : le b a → le (min b c) a.
Proof. num_order. Qed.

Lemma maxAll_ge (full : Move → option Result) (moves : list Move)
    (E : Num) (best : option Move) (M : Result) :
  maxAll full moves E best = Some M → le E (score M).
Proof.
  revert E best. induction moves as [|mv rest IH]; intros E best; simpl.
  - intros [= <-]. apply le_refl.
  - destruct (full mv) as [m|]; [|done]. simpl. intros HM. apply IH in HM.
    eapply le_trans; [|exact HM]. apply (le_max_l E E (score m)), le_refl.
Qed.

Lemma minAll_le (full : Move → option Result) (moves : list Move)
    (E : Num) (best : option Move) (M : Result) :
  minAll full moves E best = Some M → le (score M) E.
Proof.
  revert E best. induction moves as [|mv rest IH]; intros E best; simpl.
  - intros [= <-]. apply le_refl.
  - destruct (full mv) as [m|]; [|done]. simpl. intros HM. apply IH in HM.
    eapply le_trans; [exact HM|]. 
    change (le (min E (score m)) E). apply min_le_l, le_refl.
Qed.

Section Loops.
Variables (child : Move → Num → Num → option Result) (full : Move → option Result).

Lemma maxLoop_agree (alpha beta : Num) (moves : list Move) :
  (∀ mv a m, mv ∈ moves → lt a beta → full mv = Some m →
     ∃ r, child mv a beta = Some r ∧ agree a beta (score r) (score m)) →
  ∀ e E best bestF M,
    max alpha e = max alpha E → lt (max alpha e) beta →
    maxAll full moves E bestF = Some M →
    ∃ R, maxLoop child moves (max alpha e) beta e best = Some R
         ∧ agree alpha beta (score R) (score M).
Proof.
  induction moves as [|mv rest IH]; intros Hchild e E best bestF M Heq Hlt; simpl.
  - intros [= <-]. eexists. split; [done|]. by apply max_exit.
  - destruct (full mv) as [m|] eqn:Hm; [|done]. simpl. intros HM.
    destruct (Hchild mv (max alpha e) m) as (r & -> & Hagree); [by left|done|done|].
    simpl.
    destruct (leb beta (max (max alpha e) (score r))) eqn:Hcut.
    + eexists. split; [done|]. simpl.
      destruct (max_cut _ _ _ _ Hlt Hagree Hcut) as [Hr Hm'].
      apply above_agree.
      * by apply (le_max_r beta e (score r)).
      * eapply le_trans; [|exact (maxAll_ge _ _ _ _ _ HM)].
        by apply (le_max_r beta E (score m)).
    + destruct (max_step _ _ _ _ Hlt Hagree Hcut) as [Hstep Hlt'].
      rewrite max_assoc in Hstep, Hlt' |- *.
      rewrite Heq, max_assoc in Hstep.
      apply (IH (λ mv' a' m' Hin, Hchild mv' a' m' (list_elem_of_further _ _ _ Hin))
               _ _ _ _ _ Hstep Hlt' HM).
Qed.

Lemma minLoop_agree (alpha beta : Num) (moves : list Move) :
  (∀ mv b m, mv ∈ moves → lt alpha b → full mv = Some m →
     ∃ r, child mv alpha b = Some r ∧ agree alpha b (score r) (score m)) →
  ∀ e E best bestF M,
    min beta e = min beta E → lt alpha (min beta e) →
    minAll full moves E bestF = Some M →
    ∃ R, minLoop child moves alpha (min beta e) e best = Some R
         ∧ agree alpha beta (score R) (score M).
Proof.
  induction moves as [|mv rest IH]; intros Hchild e E best bestF M Heq Hlt; simpl.
  - intros [= <-]. eexists. split; [done|]. by apply min_exit.
  - destruct (full mv) as [m|] eqn:Hm; [|done]. simpl. intros HM.
    destruct (Hchild mv (min beta e) m) as (r & -> & Hagree); [by left|done|done|].
    simpl.
    destruct (leb (min (min beta e) (score r)) alpha) eqn:Hcut.
    + eexists. split; [done|]. simpl.
      destruct (min_cut _ _ _ _ Hlt Hagree Hcut) as [Hr Hm'].
      apply below_agree.
      * by apply (min_le_r alpha e (score r)).
      * eapply le_trans; [exact (minAll_le _ _ _ _ _ HM)|].
        by apply (min_le_r alpha E (score m)).
    + destruct (min_step _ _ _ _ Hlt Hagree Hcut) as [Hstep Hlt'].
      rewrite min_assoc in Hstep, Hlt' |- *.
      rewrite Heq, min_assoc in Hstep.
      apply (IH (λ mv' b' m' Hin, Hchild mv' b' m' (list_elem_of_further _ _ _ Hin))
               _ _ _ _ _ Hstep Hlt' HM).
Qed.
End Loops.

Lemma max_NegInf (a : Num) : max a NegInf = a.
Proof. by destruct a. Qed.
Lemma min_PosInf (a : Num) : min a PosInf = a.
Proof. by destruct a. Qed.

#[local] Opaque maxLoop minLoop maxAll minAll.

Lemma minimax_agree (s : Local.State) (player : Symbol) (depth : nat) :
  ∀ isMaximizing boards mainBoard nextBoardIndex alpha beta M,
    lt alpha beta →
    minimaxUnpruned s depth isMaximizing player boards mainBoard nextBoardIndex = Some M →
    ∃ R, minimax s depth alpha beta isMaximizing player boards mainBoard nextBoardIndex
         = Some R
         ∧ agree alpha beta (score R) (score M).
Proof.
  induction depth as [|depth IH];
    intros isMaximizing boards mainBoard nextBoardIndex alpha beta M Hlt; simpl.
  - repeat case_bool_decide; try (intros [= <-]; by eexists).
    destruct (evaluateBoard s player); simpl; [|done]. intros [= <-]. by eexists.
  - repeat case_bool_decide; try (intros [= <-]; by eexists).
    destruct (validMoves boards mainBoard nextBoardIndex) as [[|mv moves]|]; simpl;
      [intros [= <-]; by eexists| |done].
    destruct isMaximizing.
    + intros HM.
      lazymatch goal with
      | |- ∃ R, maxLoop ?child _ _ _ _ _ = _ ∧ _ =>
          pose proof (λ Hchild Hwin,
                        maxLoop_agree child _ alpha beta (mv :: moves) Hchild
                                      NegInf NegInf None None M eq_refl Hwin HM)
            as Hloop
      end.
      rewrite max_NegInf in Hloop. apply Hloop; [|done].
      intros mv' a m _ Ha. simpl.
      destruct (simulate boards mainBoard player mv') as [[[nb nm] nn]|]; simpl; [|done].
      by apply IH.
    + intros HM.
      lazymatch goal with
      | |- ∃ R, minLoop ?child _ _ _ _ _ = _ ∧ _ =>
          pose proof (λ Hchild Hwin,
                        minLoop_agree child _ alpha beta (mv :: moves) Hchild
                                      PosInf PosInf None None M eq_refl Hwin HM)
            as Hloop
      end.
      rewrite min_PosInf in Hloop. apply Hloop; [|done].
      intros mv' b m _ Hb. simpl.
      destruct (simulate boards mainBoard (other player) mv') as [[[nb nm] nn]|]; simpl; [|done].
      by apply IH.
Qed.

#[local] Transparent maxLoop minLoop maxAll minAll.


Lemma scoreBoards_total (player : Symbol) (boards : list (list Cell))
    (mainBoard : list Cell) (indices : list Z) (score : Z) :
  shape boards mainBoard →
  is_Some (scoreBoards player boards mainBoard indices score).
Proof.
  intros Hs. revert score. induction indices as [|i rest IH]; intros score;
    cbn [scoreBoards]; [done|].
  destruct (is_null (idx mainBoard i)) eqn:Hi; [|apply IH].
  apply is_null_in_range in Hi.
  destruct (shape_row _ _ i Hs) as (row & -> & _); [by eexists|]. apply IH.
Qed.

Lemma evaluateBoard_total (s : Local.State) (player : Symbol) :
  shape (Local.boards s) (Local.mainBoard s) → is_Some (evaluateBoard s player).
Proof.
  intros Hs. unfold evaluateBoard. repeat case_bool_decide; try done.
  by apply scoreBoards_total.
Qed.

Lemma boardMoves_total (boards : list (list Cell)) (mainBoard : list Cell) (i : Z) :
  shape boards mainBoard → is_null (idx mainBoard i) = true →
  ∃ moves, boardMoves boards i = Some moves ∧ Forall (playable boards) moves.
Proof.
  intros Hs Hi. apply is_null_in_range in Hi.
  destruct (shape_row _ _ i Hs) as (row & Hrow & _); [by eexists|].
  unfold boardMoves. rewrite Hrow. eexists. split; [done|].
  apply Forall_forall. intros mv Hmv. apply list_elem_of_fmap in Hmv as (c & -> & _).
  unfold playable. simpl. by rewrite Hrow.
Qed.

Lemma allMoves_total (boards : list (list Cell)) (mainBoard : list Cell)
    (indices : list Z) :
  shape boards mainBoard →
  ∃ moves, allMoves boards mainBoard indices = Some moves
           ∧ Forall (playable boards) moves.
Proof.
  intros Hs. induction indices as [|i rest (later & IH & Hlater)]; simpl.
  - by exists [].
  - destruct (is_null (idx mainBoard i)) eqn:Hi; [|by exists later].
    destruct (boardMoves_total _ _ i Hs Hi) as (here & -> & Hhere).
    rewrite IH. simpl. eexists. split; [done|]. by apply Forall_app.
Qed.

Lemma validMoves_total (boards : list (list Cell)) (mainBoard : list Cell)
    (nextBoardIndex : Z) :
  shape boards mainBoard →
  ∃ moves, validMoves boards mainBoard nextBoardIndex = Some moves
           ∧ Forall (playable boards) moves.
Proof.
  intros Hs. unfold validMoves.
  destruct (negb _); [|by apply allMoves_total].
  destruct (is_null _) eqn:Hnext; [by eapply boardMoves_total|by apply allMoves_total].
Qed.

Lemma simulate_total (boards : list (list Cell)) (mainBoard : list Cell)
    (mover : Symbol) (mv : Move) :
  shape boards mainBoard → playable boards mv →
  ∃ newBoards newMainBoard newNextBoardIndex,
    simulate boards mainBoard mover mv
    = Some (newBoards, newMainBoard, newNextBoardIndex)
    ∧ shape newBoards newMainBoard.
Proof.
  intros Hs [row Hrow]. destruct mv as [boardIndex cellIndex]. simpl in *.
  rewrite Hrow. do 3 eexists. split; [done|].
  destruct (checkBoardWinner _); [apply shape_setIdx_main|]; by apply shape_setIdx.
Qed.

Lemma maxAll_total (full : Move → option Result) (moves : list Move)
    (E : Num) (best : option Move) :
  Forall (λ mv, is_Some (full mv)) moves → is_Some (maxAll full moves E best).
Proof.
  intros Hall. revert E best.
  induction Hall as [|mv rest [m Hm] _ IH]; intros E best; simpl; [done|].
  rewrite Hm. simpl. apply IH.
Qed.

Lemma minAll_total (full : Move → option Result) (moves : list Move)
    (E : Num) (best : option Move) :
  Forall (λ mv, is_Some (full mv)) moves → is_Some (minAll full moves E best).
Proof.
  intros Hall. revert E best.
  induction Hall as [|mv rest [m Hm] _ IH]; intros E best; simpl; [done|].
  rewrite Hm. simpl. apply IH.
Qed.

#[local] Opaque maxLoop minLoop maxAll minAll.

Lemma minimaxUnpruned_total (s : Local.State) (player : Symbol) (depth : nat) :
  shape (Local.boards s) (Local.mainBoard s) →
  ∀ isMaximizing boards mainBoard nextBoardIndex,
    shape boards mainBoard →
    is_Some (minimaxUnpruned s depth isMaximizing player boards mainBoard nextBoardIndex).
Proof.
  intros Hs. induction depth as [|depth IH];
    intros isMaximizing boards mainBoard nextBoardIndex Hnode; simpl.
  - repeat case_bool_decide; try done.
    by destruct (evaluateBoard_total s player Hs) as [v ->].
  - repeat case_bool_decide; try done.
    destruct (validMoves_total _ _ nextBoardIndex Hnode) as (moves & -> & Hmoves).
    simpl. destruct moves as [|mv moves]; [done|].
    destruct isMaximizing; [apply maxAll_total|apply minAll_total];
      (eapply Forall_impl; [exact Hmoves|]); intros mv' Hmv'; simpl.
    + destruct (simulate_total _ _ player mv' Hnode Hmv') as (nb & nm & nn & -> & Hs').
      simpl. by apply IH.
    + destruct (simulate_total _ _ (other player) mv' Hnode Hmv')
        as (nb & nm & nn & -> & Hs').
      simpl. by apply IH.
Qed.

#[local] Transparent maxLoop minLoop maxAll minAll.

(** C4: for any game state held by the component, any node, root player
    and depth, the search with pruning, started with the window from
    [-Infinity] to [+Infinity] as [makeAIMove] starts it, returns, and its
    score is the score of the full minimax without pruning over the same
    move tree with the same leaf evaluation. *)
Theorem alpha_beta_equals_full_minimax (s : Local.State) (depth : nat)
    (isMaximizing : bool) (player : Symbol)
    (boards : list (list Cell)) (mainBoard : list Cell) (nextBoardIndex : Z) :
  shape (Local.boards s) (Local.mainBoard s) → shape boards mainBoard →
  ∃ pruned full,
    minimax s depth NegInf PosInf isMaximizing player boards mainBoard nextBoardIndex
    = Some pruned
    ∧ minimaxUnpruned s depth isMaximizing player boards mainBoard nextBoardIndex
      = Some full
    ∧ score pruned = score full.
Proof.
  intros Hs Hnode.
  destruct (minimaxUnpruned_total s player depth Hs isMaximizing _ _ nextBoardIndex Hnode)
    as [full Hfull].
  destruct (minimax_agree s player depth _ _ _ _ NegInf PosInf full eq_refl Hfull)
    as (pruned & Hpruned & Hagree).
  exists pruned, full. split; [done|]. split; [done|]. by apply agree_full_window.
Qed.

Lemma alpha_beta_equals_full_minimax_witness :
  shape emptyBoards emptyBoard
  ∧ ∃ pruned full,
      minimax Local.initial 3 NegInf PosInf true O emptyBoards emptyBoard (-1)
      = Some pruned
      ∧ minimaxUnpruned Local.initial 3 true O emptyBoards emptyBoard (-1)
        = Some full
      ∧ score pruned = score full.
Proof.
  split; [apply shape_empty|].
  apply (alpha_beta_equals_full_minimax Local.initial 3 true O
           emptyBoards emptyBoard (-1)); apply shape_empty.
Defined.

(** At depth 0 an unresolved node is scored by [evaluateBoard] on the
    state cells of the component, whatever boards the node itself holds. *)
Lemma minimax_leaf_reads_component_state (s : Local.State) (alpha beta : Num)
    (isMaximizing : bool) (player : Symbol)
    (boards : list (list Cell)) (mainBoard : list Cell) (nextBoardIndex : Z) :
  checkBoardWinner mainBoard = None →
  minimax s 0 alpha beta isMaximizing player boards mainBoard nextBoardIndex
  = (v ← evaluateBoard s player; Some {| score := Fin v; move := None |}).
Proof. intros Hopen. simpl. rewrite Hopen. by repeat case_bool_decide. Qed.

(** C2, at the input where the code departs from it: the component holds
    the empty board and the AI plays X at depth 1.  The node reached by
    the simulated move (4, 4) is unresolved and is searched with depth 0;
    the heuristic score of that node is 4 for X, but the search returns
    0, the score of the empty board the component holds; so every move of
    the root scores 0 and the search answers with the first one. *)
Theorem leaf_scores_component_state_not_node :
  ∃ nodeBoards nodeMainBoard,
    simulate emptyBoards emptyBoard X (4, 4) = Some (nodeBoards, nodeMainBoard, 4)
    ∧ checkBoardWinner nodeMainBoard = None
    ∧ minimax Local.initial 0 NegInf PosInf false X nodeBoards nodeMainBoard 4
      = Some {| score := Fin 0; move := None |}
    ∧ evaluateBoard (stateOf nodeBoards nodeMainBoard) X = Some 4
    ∧ evaluateBoard Local.initial X = Some 0
    ∧ aiMove Local.initial 1 X = Some {| score := Fin 0; move := Some (0, 0) |}.
Proof. do 2 eexists. repeat split; reflexivity. Qed.

End SearchClaims.

(** * Further properties of the code *)

(** ** The win/draw evaluator *)

Module EvaluatorFacts.

Lemma lineWinner_Some (board : list Cell) (line : Z * Z * Z) (m : Mark) :
  lineWinner board line = Some m ↔
  idx board line.1.1 = Some (Some m)
  ∧ idx board line.1.2 = Some (Some m)
  ∧ idx board line.2 = Some (Some m).
Proof.
  destruct line as [[a b] c]. unfold lineWinner, strict_eq. simpl.
  destruct (idx board a) as [[ma|]|]; [|split; [done|by intros ([=] & _)]..].
  case_bool_decide as Hb; simpl.
  - case_bool_decide as Hc.
    + split; [intros [= Hm]; subst ma; by rewrite <- Hb, <- Hc|].
      intros ([= Hm] & _). by subst.
    + split; [done|]. intros ([= Hm] & _ & Hc'). subst. by rewrite Hc' in Hc.
  - split; [done|]. intros ([= Hm] & Hb' & _). subst. by rewrite Hb' in Hb.
Qed.

Lemma firstLine_Some (board : list Cell) (lines : list (Z * Z * Z)) (m : Mark) :
  firstLine board lines = Some m →
  ∃ line, line ∈ lines ∧ lineWinner board line = Some m.
Proof.
  induction lines as [|line rest IH]; simpl; [done|].
  destruct (lineWinner board line) as [m'|] eqn:Hline.
  - intros [= ->]. exists line. split; [by left|done].
  - intros (l & Hin & Hl)%IH. exists l. split; [by right|done].
Qed.

Lemma firstLine_None (board : list Cell) (lines : list (Z * Z * Z)) :
  firstLine board lines = None ↔
  ∀ line, line ∈ lines → lineWinner board line = None.
Proof.
  induction lines as [|line rest IH]; simpl.
  - split; [by intros _ l ?%elem_of_nil|done].
  - destruct (lineWinner board line) as [m'|] eqn:Hline.
    + split; [done|]. intros Hall. rewrite Hall in Hline; [done|by left].
    + rewrite IH. split.
      * intros Hall l [->|Hin]%elem_of_cons; [done|by apply Hall].
      * intros Hall l Hin. apply Hall. by right.
Qed.

Lemma holdsLine_lineWinner (board : list Cell) (m : Mark) :
  holdsLine board m ↔
  ∃ line, line ∈ WINNING_COMBINATIONS ∧ lineWinner board line = Some m.
Proof.
  split.
  - intros (a & b & c & Hin & Ha & Hb & Hc). exists (a, b, c).
    split; [done|]. by apply lineWinner_Some.
  - intros ([[a b] c] & Hin & Hline). apply lineWinner_Some in Hline.
    by exists a, b, c.
Qed.

Lemma allFilled_false (board : list Cell) :
  allFilled board = false ↔ ∃ i, idx board i = Some None.
Proof.
  split; [|intros [i Hi]; by eapply allFilled_no_null].
  unfold allFilled. induction board as [|cell rest IH]; simpl; [done|].
  destruct cell as [m|]; simpl.
  - intros (i & Hi)%IH. exists (i + 1).
    pose proof (idx_Some_range _ _ _ Hi) as Hr. unfold idx in *.
    destruct (Z.leb_spec 0 i); [|lia]. destruct (Z.leb_spec 0 (i + 1)); [|lia].
    by replace (Z.to_nat (i + 1)) with (S (Z.to_nat i)) by lia.
  - intros _. by exists 0.
Qed.

(** X1: what the result of [checkBoardWinner] means.  It is [null]
    exactly when no winning line is filled with one mark and some slot is
    empty; a result X or O is the mark that fills some winning line; a
    result [draw] comes from a full board without such a line, or from a
    line of three [draw] entries. *)
Theorem checkBoardWinner_meaning (board : list Cell) :
  (checkBoardWinner board = None ↔
   (∀ m, ¬ holdsLine board m) ∧ ∃ i, idx board i = Some None)
  ∧ (∀ s, checkBoardWinner board = Some (Sym s) → holdsLine board (Sym s))
  ∧ (checkBoardWinner board = Some Draw →
     holdsLine board Draw
     ∨ ((∀ m, ¬ holdsLine board m) ∧ ∀ i cell, idx board i = Some cell → cell ≠ None)).
Proof.
  unfold checkBoardWinner.
  destruct (firstLine board WINNING_COMBINATIONS) as [m|] eqn:Hfirst.
  - assert (holdsLine board m) as Hm
        by (apply holdsLine_lineWinner; by apply firstLine_Some).
    split; [|split].
    + split; [done|]. intros [Hno _]. by destruct (Hno m).
    + by intros s [= ->].
    + intros [= ->]. by left.
  - assert (∀ m, ¬ holdsLine board m) as Hno.
    { intros m (line & Hin & Hline)%holdsLine_lineWinner.
      rewrite (proj1 (firstLine_None _ _) Hfirst line Hin) in Hline. done. }
    destruct (allFilled board) eqn:Hfull.
    + split; [|split]; [|done|].
      * split; [done|]. intros [_ Hempty%allFilled_false]. congruence.
      * intros _. right. split; [done|]. intros i cell Hi ->.
        apply allFilled_no_null in Hi. congruence.
    + split; [|done]. split; [|done]. intros _. split; [done|].
      by apply allFilled_false.
Qed.

Lemma idx_map {A B : Type} (f : A → B) (arr : list A) (i : Z) :
  idx (map f arr) i = f <$> idx arr i.
Proof. unfold idx. destruct (0 <=? i); [apply list_lookup_fmap|done]. Qed.

Lemma lineWinner_swap (board : list Cell) (line : Z * Z * Z) :
  lineWinner (swapBoard board) line = swapMark <$> lineWinner board line.
Proof.
  destruct line as [[a b] c]. unfold lineWinner, swapBoard, strict_eq.
  rewrite !idx_map. unfold Cell in *.
  destruct (idx board a) as [[[[]|]|]|], (idx board b) as [[[[]|]|]|],
           (idx board c) as [[[[]|]|]|]; reflexivity.
Qed.

(** X2: the evaluator treats both players alike: exchanging the marks X
    and O on a board exchanges them in the result. *)
Theorem checkBoardWinner_swap (board : list Cell) :
  checkBoardWinner (swapBoard board) = swapMark <$> checkBoardWinner board.
Proof.
  unfold checkBoardWinner.
  assert (∀ lines, firstLine (swapBoard board) lines
                   = swapMark <$> firstLine board lines) as ->.
  { induction lines as [|line rest IH]; simpl; [done|].
    rewrite lineWinner_swap, IH. by destruct (lineWinner board line). }
  destruct (firstLine board _); simpl; [done|].
  assert (allFilled (swapBoard board) = allFilled board) as ->.
  { unfold allFilled, swapBoard. induction board as [|[m|] rest IH]; simpl;
      [done|by rewrite IH|done]. }
  by destruct (allFilled board).
Qed.

End EvaluatorFacts.

(** ** Who is in a room, and whose turn it is *)

Module MembershipFacts.
Import Room RoomFacts RoomClaims MoveClaims.

Lemma includes_elem (l : list string) (x : string) :
  includes l x = true ↔ x ∈ l.
Proof. unfold includes. apply bool_decide_eq_true. Qed.

Lemma includes_not_elem (l : list string) (x : string) :
  includes l x = false ↔ x ∉ l.
Proof. unfold includes. apply bool_decide_eq_false. Qed.

Lemma indexOf_not_elem (l : list string) (x : string) :
  x ∉ l → indexOf l x = -1.
Proof.
  intros Hx. destruct (Z.eq_dec (indexOf l x) (-1)) as [|Hne]; [done|].
  by apply indexOf_includes, includes_elem in Hne.
Qed.

Lemma indexOf_app_new (l : list string) (x : string) :
  x ∉ l → indexOf (l ++ [x]) x = Z.of_nat (length l).
Proof.
  induction l as [|y rest IH]; simpl; intros Hx.
  - by rewrite bool_decide_eq_true_2.
  - apply not_elem_of_cons in Hx as [Hne Hrest].
    rewrite bool_decide_eq_false_2 by done. rewrite (IH Hrest).
    destruct (Z.eqb_spec (Z.of_nat (length rest)) (-1)); lia.
Qed.

Lemma move_keeps_members (room : GameRoom) (playerId : string)
    (boardIndex cellIndex now : Z) :
  let served := (handleMakeMove room playerId boardIndex cellIndex now).2 in
  id served = id room ∧ players served = players room
  ∧ spectators served = spectators room.
Proof. unfold handleMakeMove. by repeat case_match. Qed.

Lemma reset_keeps_members (room : GameRoom) (playerId : string) (now : Z) :
  let served := (handleResetGame room playerId now).2 in
  id served = id room ∧ players served = players room
  ∧ spectators served = spectators room.
Proof. unfold handleResetGame. by case_match. Qed.

Lemma membership_join (room : GameRoom) (playerId : string) (now : Z) :
  membership (players room) (spectators room) →
  membership (players (handleJoinRoom room playerId now).2)
             (spectators (handleJoinRoom room playerId now).2).
Proof.
  intros Hm. pose proof Hm as [Hcount Hp Hs Hapart Hfull]. unfold handleJoinRoom.
  destruct (includes (players room) playerId) eqn:Hin; [done|].
  apply includes_not_elem in Hin.
  destruct (Z.leb_spec 2 (Z.of_nat (length (players room)))) as [Htwo|Hone]; simpl.
  - destruct (includes (spectators room) playerId) eqn:Hspec; [done|].
    apply includes_not_elem in Hspec. split; try done.
    + apply NoDup_app. split; [done|]. split; [|apply NoDup_singleton].
      intros p Hp' ->%list_elem_of_singleton. done.
    + intros p [Hp'| ->%list_elem_of_singleton]%elem_of_app; [by apply Hapart|done].
    + intros _. lia.
  - assert (spectators room = []) as Hnone.
    { destruct (spectators room) as [|p rest] eqn:E; [done|].
      assert (length (players room) = 2%nat) by (by apply Hfull). lia. }
    split; simpl.
    + rewrite length_app. simpl. lia.
    + apply NoDup_app. split; [done|]. split; [|apply NoDup_singleton].
      intros p Hp' ->%list_elem_of_singleton. done.
    + done.
    + rewrite Hnone. by intros p ?%elem_of_nil.
    + by rewrite Hnone.
Qed.

Lemma reachable_membership (room : GameRoom) :
  reachable room → membership (players room) (spectators room).
Proof.
  induction 1 as [roomId playerId now room Hc
                 |room playerId now _ IH
                 |room playerId boardIndex cellIndex now _ IH
                 |room playerId now _ IH].
  - unfold createRoom in Hc. case_bool_decide; [done|]. injection Hc as <-.
    split; simpl; [lia|apply NoDup_singleton|apply NoDup_nil_2| |done].
    by intros p ?%elem_of_nil.
  - by apply membership_join.
  - by destruct (move_keeps_members room playerId boardIndex cellIndex now)
      as (_ & -> & ->).
  - by destruct (reset_keeps_members room playerId now) as (_ & -> & ->).
Qed.

(** X3: in every room the server can hold there are one or two players,
    nobody is listed twice, and spectators exist only beside two players
    and are never players themselves. *)
Theorem room_membership (room : GameRoom) :
  reachable room → membership (players room) (spectators room).
Proof. apply reachable_membership. Qed.

Lemma room_membership_witness :
  reachable (handleJoinRoom twoPlayers "carol" 50).2
  ∧ membership (players (handleJoinRoom twoPlayers "carol" 50).2)
               (spectators (handleJoinRoom twoPlayers "carol" 50).2)
  ∧ spectators (handleJoinRoom twoPlayers "carol" 50).2 = ["carol"].
Proof.
  assert (reachable (handleJoinRoom twoPlayers "carol" 50).2) as Hr
    by apply reach_join, reachable_twoPlayers.
  split; [exact Hr|]. split; [|reflexivity].
  apply (room_membership _ Hr).
Defined.

Lemma request_keeps (room room' : GameRoom) :
  request room room' →
  id room' = id room
  ∧ players room `prefix_of` players room'
  ∧ spectators room `prefix_of` spectators room'.
Proof.
  intros [r p now|r p b c now|r p now].
  - unfold handleJoinRoom. repeat case_match; simpl; repeat split; try done;
      by apply prefix_app_r.
  - by destruct (move_keeps_members r p b c now) as (-> & -> & ->).
  - by destruct (reset_keeps_members r p now) as (-> & -> & ->).
Qed.

(** X4: requests never remove anybody and never rename the room: through
    any sequence of joins, moves and resets the room keeps its code, the
    lists of players and of spectators only grow at the end, and the host
    (the first player) stays the same. *)
Theorem members_only_grow (room room' : GameRoom) :
  reachable room → rtc request room room' →
  id room' = id room
  ∧ players room `prefix_of` players room'
  ∧ spectators room `prefix_of` spectators room'
  ∧ idx (players room') 0 = idx (players room) 0.
Proof.
  intros Hr Hsteps.
  assert (id room' = id room
          ∧ players room `prefix_of` players room'
          ∧ spectators room `prefix_of` spectators room') as (Hid & Hp & Hs).
  { clear Hr. induction Hsteps as [r|r1 r2 r3 Hstep _ (IHid & IHp & IHs)]; [done|].
    destruct (request_keeps _ _ Hstep) as (Hid & Hp & Hs).
    split; [congruence|]. split; by etrans. }
  repeat split; try done.
  destruct (reachable_membership _ Hr) as [Hcount _ _ _ _].
  destruct Hp as [more ->]. destruct (players room) as [|host rest]; [simpl in *; lia|done].
Qed.

Lemma members_only_grow_witness :
  let room' := (handleResetGame
                  (handleJoinRoom (play twoPlayers 2 centreOpening) "carol" 50).2
                  "alice" 60).2 in
  reachable twoPlayers
  ∧ idx (players room') 0 = Some "alice"
  ∧ id room' = "ROOM42".
Proof.
  split; [apply reachable_twoPlayers|].
  assert (rtc request twoPlayers
            (handleResetGame
               (handleJoinRoom (play twoPlayers 2 centreOpening) "carol" 50).2
               "alice" 60).2) as Hsteps.
  { eapply rtc_l; [apply (req_move _ "alice" 4 0 2)|].
    eapply rtc_l; [apply (req_move _ "bob" 0 4 3)|].
    eapply rtc_l; [apply (req_move _ "alice" 4 8 4)|].
    eapply rtc_l; [apply (req_move _ "bob" 8 4 5)|].
    eapply rtc_l; [apply (req_join _ "carol" 50)|].
    eapply rtc_l; [apply (req_reset _ "alice" 60)|].
    apply rtc_refl. }
  destruct (members_only_grow _ _ reachable_twoPlayers Hsteps) as (Hid & _ & _ & Hhost).
  split; [exact Hhost|exact Hid].
Defined.

(** X5: joining is idempotent: when a participant who has just joined a
    room the server holds joins again, the room does not change and the
    answer (symbol and host flag) is the same as the first time. *)
Theorem join_twice_same (room : GameRoom) (playerId : string) (now now' : Z) :
  reachable room →
  handleJoinRoom (handleJoinRoom room playerId now).2 playerId now'
  = handleJoinRoom room playerId now.
Proof.
  intros Hr. destruct (reachable_membership _ Hr) as [Hcount Hp _ _ _].
  unfold handleJoinRoom at 2 3.
  destruct (includes (players room) playerId) eqn:Hin.
  - simpl. unfold handleJoinRoom. by rewrite Hin.
  - pose proof (proj1 (includes_not_elem _ _) Hin) as Hnot.
    destruct (Z.leb_spec 2 (Z.of_nat (length (players room)))) as [Htwo|Hone]; simpl.
    + unfold handleJoinRoom. simpl. rewrite Hin.
      rewrite (proj2 (Z.leb_le _ _) Htwo).
      destruct (includes (spectators room) playerId) eqn:Hspec.
      * by rewrite Hspec.
      * assert (includes (spectators room ++ [playerId]) playerId = true) as ->.
        { apply includes_elem, elem_of_app. right. by left. }
        done.
    + unfold handleJoinRoom. simpl.
      assert (includes (players room ++ [playerId]) playerId = true) as ->.
      { apply includes_elem, elem_of_app. right. by left. }
      rewrite (indexOf_app_new _ _ Hnot).
      assert (length (players room) = 1%nat) as -> by lia. done.
Qed.

Lemma join_twice_same_witness :
  reachable twoPlayers
  ∧ handleJoinRoom (handleJoinRoom twoPlayers "carol" 50).2 "carol" 70
    = handleJoinRoom twoPlayers "carol" 50.
Proof.
  split; [apply reachable_twoPlayers|].
  apply (join_twice_same twoPlayers "carol" 50 70 reachable_twoPlayers).
Defined.

(** X6: a spectator can neither move nor reset: in a room the server
    holds, both requests of a participant listed in [spectators] are
    answered with an error and leave the room as it is. *)
Theorem spectator_cannot_act (room : GameRoom) (playerId : string)
    (boardIndex cellIndex now : Z) :
  reachable room → playerId ∈ spectators room →
  handleMakeMove room playerId boardIndex cellIndex now
  = (RError "Not your turn", room)
  ∧ handleResetGame room playerId now
    = (RError "Only host can reset the game", room).
Proof.
  intros Hr Hspec. destruct (reachable_membership _ Hr) as [_ _ _ Hapart _].
  specialize (Hapart _ Hspec). split.
  - unfold handleMakeMove. by rewrite (indexOf_not_elem _ _ Hapart).
  - unfold handleResetGame. rewrite bool_decide_eq_true_2; [done|].
    intros Hhost. apply Hapart. by eapply idx_elem_of.
Qed.

Lemma spectator_cannot_act_witness :
  let room := (handleJoinRoom twoPlayers "carol" 50).2 in
  reachable room ∧ "carol" ∈ spectators room
  ∧ handleMakeMove room "carol" 4 4 51 = (RError "Not your turn", room)
  ∧ handleResetGame room "carol" 51 = (RError "Only host can reset the game", room).
Proof.
  assert (reachable (handleJoinRoom twoPlayers "carol" 50).2) as Hr
    by apply reach_join, reachable_twoPlayers.
  assert ("carol" ∈ spectators (handleJoinRoom twoPlayers "carol" 50).2) as Hin
    by (by left).
  split; [exact Hr|]. split; [exact Hin|].
  apply (spectator_cannot_act _ "carol" 4 4 51 Hr Hin).
Defined.

(** X7: nobody moves twice in a row: after a move request of a
    participant has been accepted, the next move request of the same
    participant is answered with "Not your turn", whatever the move. *)
Theorem no_two_moves_in_a_row (room : GameRoom) (playerId : string)
    (boardIndex cellIndex now boardIndex' cellIndex' now' : Z) :
  reachable room →
  (handleMakeMove room playerId boardIndex cellIndex now).1 = RSuccess →
  handleMakeMove (handleMakeMove room playerId boardIndex cellIndex now).2
                 playerId boardIndex' cellIndex' now'
  = (RError "Not your turn",
     (handleMakeMove room playerId boardIndex cellIndex now).2).
Proof.
  intros Hr Hok. destruct (reachable_membership _ Hr) as [Hcount _ _ _ _].
  pose proof (indexOf_range (players room) playerId) as Hrange.
  destruct (DriverClaims.room_routing_reads_new_status
              room playerId boardIndex cellIndex now Hok) as [_ Hturn].
  destruct (move_keeps_members room playerId boardIndex cellIndex now)
    as (_ & Hplayers & _).
  revert Hok. unfold handleMakeMove at 1. 
  destruct (_ || _ || _) eqn:Hguard; [done|]. intros _.
  unfold handleMakeMove at 1. rewrite Hplayers, Hturn.
  apply orb_false_iff in Hguard as [[H1 H2]%orb_false_iff H3].
  destruct (Z.eqb_spec (indexOf (players room) playerId) (-1)); [done|].
  destruct (Z.eqb_spec (indexOf (players room) playerId) 0) as [H0|H0]; simpl in *.
  - apply bool_decide_eq_false in H2. apply dec_stable in H2. rewrite H2. done.
  - assert (indexOf (players room) playerId = 1) as Hone by lia.
    rewrite Hone in *. simpl in *.
    apply bool_decide_eq_false in H3. apply dec_stable in H3. rewrite H3. done.
Qed.

Lemma no_two_moves_in_a_row_witness :
  reachable twoPlayers
  ∧ (handleMakeMove twoPlayers "alice" 4 4 2).1 = RSuccess
  ∧ handleMakeMove (handleMakeMove twoPlayers "alice" 4 4 2).2 "alice" 4 0 3
    = (RError "Not your turn", (handleMakeMove twoPlayers "alice" 4 4 2).2).
Proof.
  split; [apply reachable_twoPlayers|]. split; [reflexivity|].
  apply (no_two_moves_in_a_row twoPlayers "alice" 4 4 2 4 0 3
           reachable_twoPlayers).
  reflexivity.
Defined.

End MembershipFacts.

(** ** The game a room holds *)

Module GameFacts.
Import Room RoomFacts RoomClaims EvaluatorFacts.

Lemma winner_line (board : list Cell) (s : Symbol) :
  checkBoardWinner board = Some (Sym s) → holdsLine board (Sym s).
Proof.
  unfold checkBoardWinner.
  destruct (firstLine board WINNING_COMBINATIONS) as [m|] eqn:Hfirst.
  - intros [= ->]. apply holdsLine_lineWinner. by apply firstLine_Some.
  - by destruct (allFilled board).
Qed.

Lemma open_board_has_empty_slot (board : list Cell) :
  checkBoardWinner board = None → ∃ i, idx board i = Some None.
Proof. intros Hopen. by apply allFilled_false, checkBoardWinner_None_not_full. Qed.

Lemma reachable_winner (room : GameRoom) :
  reachable room → winner room = checkBoardWinner (mainBoard room).
Proof.
  induction 1 as [roomId playerId now room Hc
                 |room playerId now Hr IH
                 |room playerId boardIndex cellIndex now Hr IH
                 |room playerId now Hr IH].
  - unfold createRoom in Hc. case_bool_decide; [done|]. by injection Hc as <-.
  - unfold handleJoinRoom. by repeat case_match.
  - pose proof (reachable_invariant _ Hr) as [_ _ Hw _ _].
    unfold handleMakeMove.
    destruct (_ || _ || _); [done|].
    destruct (gameOver room) eqn:Hover; [done|].
    destruct (_ && _ && _); [done|].
    destruct (is_null (idx (mainBoard room) boardIndex)) eqn:Hmain; [|done]. simpl.
    apply is_null_in_range in Hmain.
    destruct (idx (boards room) boardIndex) as [row|]; [|done].
    destruct (is_null (idx row cellIndex)); [|done]. simpl.
    assert (winner room = None) as Hnone.
    { destruct (winner room) eqn:E; [|done].
      assert (false = true) by (apply Hw; done). done. }
    destruct (checkBoardWinner (setIdx row cellIndex _)) as [m|]; simpl.
    + destruct (checkBoardWinner (setIdx _ _ _)) eqn:Hgame; simpl; [done|].
      by rewrite (checkBoardWinner_None_not_full _ Hgame).
    + by rewrite (allFilled_no_null _ _ Hmain).
  - unfold handleResetGame. by case_match.
Qed.

(** X8: a declared winner really won: when a room the server holds names
    X or O as [winner], that player's mark fills a winning line of the
    main board, and each of the three sub-boards of that line holds a
    winning line of cells of that player. *)
Theorem winner_holds_lines (room : GameRoom) (s : Symbol) :
  reachable room → winner room = Some (Sym s) →
  ∃ a b c, (a, b, c) ∈ WINNING_COMBINATIONS
    ∧ ∀ i, i ∈ [a; b; c] →
        idx (mainBoard room) i = Some (Some (Sym s))
        ∧ ∃ row, idx (boards room) i = Some row ∧ holdsLine row (Sym s).
Proof.
  intros Hr Hwin. rewrite (reachable_winner _ Hr) in Hwin.
  pose proof (reachable_invariant _ Hr) as [Hs _ _ _ Hst].
  destruct (winner_line _ _ Hwin) as (a & b & c & Hin & Ha & Hb & Hc).
  exists a, b, c. split; [done|].
  assert (∀ i, idx (mainBoard room) i = Some (Some (Sym s)) →
               idx (mainBoard room) i = Some (Some (Sym s))
               ∧ ∃ row, idx (boards room) i = Some row ∧ holdsLine row (Sym s))
    as Hone.
  { intros i Hi. split; [done|].
    destruct (shape_row _ _ i Hs) as (row & Hrow & _); [by eexists|].
    exists row. split; [done|]. apply winner_line.
    specialize (Hst _ _ Hrow). congruence. }
  intros i Hi. repeat (apply elem_of_cons in Hi as [->|Hi]); try by apply Hone.
  by apply elem_of_nil in Hi.
Qed.

Lemma winner_holds_lines_witness :
  let room := (handleMakeMove (play twoPlayers 2 beforeWin) "alice" 7 3 18).2 in
  reachable room ∧ winner room = Some (Sym X)
  ∧ ∃ a b c, (a, b, c) ∈ WINNING_COMBINATIONS
      ∧ ∀ i, i ∈ [a; b; c] →
          idx (mainBoard room) i = Some (Some (Sym X))
          ∧ ∃ row, idx (boards room) i = Some row ∧ holdsLine row (Sym X).
Proof.
  assert (reachable (handleMakeMove (play twoPlayers 2 beforeWin) "alice" 7 3 18).2)
    as Hr by apply reach_move, reachable_play, reachable_twoPlayers.
  split; [exact Hr|]. split; [reflexivity|].
  apply (winner_holds_lines _ X Hr). reflexivity.
Defined.

Lemma reachable_next_board (room : GameRoom) :
  reachable room →
  nextBoardIndex room = -1
  ∨ (0 ≤ nextBoardIndex room ≤ 8
     ∧ idx (mainBoard room) (nextBoardIndex room) = Some None).
Proof.
  induction 1 as [roomId playerId now room Hc
                 |room playerId now Hr IH
                 |room playerId boardIndex cellIndex now Hr IH
                 |room playerId now Hr IH].
  - unfold createRoom in Hc. case_bool_decide; [done|]. injection Hc as <-. by left.
  - unfold handleJoinRoom. by repeat case_match.
  - pose proof (reachable_invariant _ (reach_move _ playerId boardIndex cellIndex now Hr))
      as [(Hlen & _) _ _ _ _].
    revert Hlen. unfold handleMakeMove.
    destruct (_ || _ || _); [done|].
    destruct (gameOver room); [done|].
    destruct (_ && _ && _); [done|].
    destruct (is_null (idx (mainBoard room) boardIndex)); [|done]. simpl.
    destruct (idx (boards room) boardIndex) as [row|]; [|done].
    destruct (is_null (idx row cellIndex)); [|done]. simpl.
    set (main1 := match checkBoardWinner _ with Some m => _ | None => _ end).
    intros Hlen. destruct (is_null (idx main1 cellIndex)) eqn:Hnext; [|by left].
    apply is_null_in_range in Hnext. right. split; [|done].
    apply idx_Some_range in Hnext. lia.
  - unfold handleResetGame. case_match; [done|]. by left.
Qed.

(** X9: the routing field is always meaningful in a room the server
    holds: [nextBoardIndex] is -1, or it is the index (0 to 8) of a
    sub-board whose status is still empty. *)
Theorem next_board_is_open (room : GameRoom) :
  reachable room →
  nextBoardIndex room = -1
  ∨ (0 ≤ nextBoardIndex room ≤ 8
     ∧ idx (mainBoard room) (nextBoardIndex room) = Some None).
Proof. apply reachable_next_board. Qed.

Lemma next_board_is_open_witness :
  reachable (play twoPlayers 2 centreOpening)
  ∧ nextBoardIndex (play twoPlayers 2 centreOpening) = 4
  ∧ (nextBoardIndex (play twoPlayers 2 centreOpening) = -1
     ∨ (0 ≤ nextBoardIndex (play twoPlayers 2 centreOpening) ≤ 8
        ∧ idx (mainBoard (play twoPlayers 2 centreOpening))
              (nextBoardIndex (play twoPlayers 2 centreOpening)) = Some None)).
Proof.
  assert (reachable (play twoPlayers 2 centreOpening)) as Hr
    by apply reachable_play, reachable_twoPlayers.
  split; [exact Hr|]. split; [reflexivity|].
  apply (next_board_is_open _ Hr).
Defined.

(** X10: the game never gets stuck: while a room the server holds is not
    over, some move is legal, so the player to move can always play. *)
Theorem open_game_has_legal_move (room : GameRoom) :
  reachable room → gameOver room = false →
  ∃ boardIndex cellIndex, isLegal room boardIndex cellIndex.
Proof.
  intros Hr Hover. pose proof (reachable_invariant _ Hr) as [Hs _ _ Hopen Hst].
  assert (∀ i, idx (mainBoard room) i = Some None →
               ∃ row c, idx (boards room) i = Some row ∧ idx row c = Some None)
    as Hcell.
  { intros i Hi. destruct (shape_row _ _ i Hs) as (row & Hrow & _); [by eexists|].
    specialize (Hst _ _ Hrow). rewrite Hi in Hst. injection Hst as Hst.
    destruct (open_board_has_empty_slot row) as [c Hc]; [done|]. by exists row, c. }
  destruct (decide (nextBoardIndex room ≠ -1
                    ∧ idx (mainBoard room) (nextBoardIndex room) = Some None))
    as [[Hn Hnull]|Hfree].
  - destruct (Hcell _ Hnull) as (row & c & Hrow & Hc).
    exists (nextBoardIndex room), c. repeat split; try done. by exists row.
  - destruct (open_board_has_empty_slot (mainBoard room) (Hopen Hover)) as [i Hi].
    destruct (Hcell _ Hi) as (row & c & Hrow & Hc).
    exists i, c. split; [done|]. split; [|split; [done|by exists row]].
    intros Hn Hnull. by destruct Hfree.
Qed.

Lemma open_game_has_legal_move_witness :
  reachable (play twoPlayers 2 beforeDrawLine)
  ∧ gameOver (play twoPlayers 2 beforeDrawLine) = false
  ∧ ∃ boardIndex cellIndex,
      isLegal (play twoPlayers 2 beforeDrawLine) boardIndex cellIndex.
Proof.
  assert (reachable (play twoPlayers 2 beforeDrawLine)) as Hr
    by apply reachable_play, reachable_twoPlayers.
  split; [exact Hr|]. split; [reflexivity|].
  apply (open_game_has_legal_move _ Hr). reflexivity.
Defined.

Lemma advances_keeps_cell (room room' : GameRoom) (b c : Z)
    (row : list Cell) (m : Mark) :
  advances room room' →
  idx (boards room) b = Some row → idx row c = Some (Some m) →
  ∃ row', idx (boards room') b = Some row' ∧ idx row' c = Some (Some m).
Proof.
  intros [r playerId now|r playerId boardIndex cellIndex now] Hrow Hc.
  - exists row. split; [|done]. unfold handleJoinRoom. by repeat case_match.
  - unfold handleMakeMove.
    destruct (_ || _ || _); [by exists row|].
    destruct (gameOver r); [by exists row|].
    destruct (_ && _ && _); [by exists row|].
    destruct (is_null (idx (mainBoard r) boardIndex)); [|by exists row]. simpl.
    destruct (idx (boards r) boardIndex) as [rowb|] eqn:Hrowb; [|by exists row].
    destruct (is_null (idx rowb cellIndex)) eqn:Hnull; [|by exists row]. simpl.
    apply is_null_in_range in Hnull.
    destruct (decide (boardIndex = b)) as [->|Hne].
    + rewrite Hrow in Hrowb. injection Hrowb as <-.
      eexists. split; [apply idx_setIdx_eq; by eapply idx_Some_range|].
      rewrite idx_setIdx_ne; [done|]. intros ->. congruence.
    + exists row. by rewrite idx_setIdx_ne.
Qed.

(** X11: a mark is never overwritten: a cell that holds X or O keeps it
    through any further joins and moves (only a reset clears it). *)
Theorem cell_keeps_mark (room room' : GameRoom) (b c : Z)
    (row : list Cell) (m : Mark) :
  rtc advances room room' →
  idx (boards room) b = Some row → idx row c = Some (Some m) →
  ∃ row', idx (boards room') b = Some row' ∧ idx row' c = Some (Some m).
Proof.
  intros Hsteps. revert row.
  induction Hsteps as [r|r1 r2 r3 Hstep _ IH]; intros row Hrow Hc; [by exists row|].
  destruct (advances_keeps_cell _ _ _ _ _ _ Hstep Hrow Hc) as (row2 & Hrow2 & Hc2).
  by eapply IH.
Qed.

Lemma cell_keeps_mark_witness :
  ∃ row', idx (boards (play twoPlayers 2 centreOpening)) 4 = Some row'
          ∧ idx row' 0 = Some (Some (Sym X)).
Proof.
  apply (cell_keeps_mark (play twoPlayers 2 [(4, 0)])
           (play twoPlayers 2 centreOpening) 4 0
           [Some (Sym X); None; None; None; None; None; None; None; None] (Sym X)).
  - eapply rtc_l; [apply (adv_move _ "bob" 0 4 3)|].
    eapply rtc_l; [apply (adv_move _ "alice" 4 8 4)|].
    eapply rtc_l; [apply (adv_move _ "bob" 8 4 5)|].
    apply rtc_refl.
  - reflexivity.
  - reflexivity.
Defined.

End GameFacts.

(** ** Counting marks *)

Module CountFacts.
Import Room RoomFacts RoomClaims.

Lemma filter_length_insert {A : Type} (P : A → Prop) `{!∀ x, Decision (P x)}
    (l : list A) (i : nat) (x y : A) :
  l !! i = Some x →
  (length (filter P (<[i := y]> l)) + (if decide (P x) then 1 else 0)
   = length (filter P l) + (if decide (P y) then 1 else 0))%nat.
Proof.
  intros Hi. pose proof (lookup_lt_Some _ _ _ Hi) as Hlt.
  rewrite insert_take_drop by done.
  rewrite <- (take_drop_middle l i x Hi) at 3.
  rewrite !filter_app, !filter_cons, !length_app.
  repeat case_decide; simpl; lia.
Qed.

Lemma concat_insert {A : Type} (ll : list (list A)) (i : nat) (l l' : list A) :
  ll !! i = Some l →
  ∃ pre post, concat ll = pre ++ l ++ post
              ∧ concat (<[i := l']> ll) = pre ++ l' ++ post.
Proof.
  intros Hi. pose proof (lookup_lt_Some _ _ _ Hi) as Hlt.
  exists (concat (take i ll)), (concat (drop (S i) ll)). split.
  - rewrite <- (take_drop_middle ll i l Hi) at 1. by rewrite concat_app.
  - rewrite insert_take_drop by done. by rewrite concat_app.
Qed.

(** Writing a mark into an empty cell adds one to the count of that mark
    and leaves the count of the other mark alone. *)
Lemma marksOf_move (who mover : Symbol) (boards : list (list Cell))
    (row : list Cell) (b c : Z) :
  idx boards b = Some row → idx row c = Some None →
  marksOf who (setIdx boards b (setIdx row c (Some (Sym mover))))
  = marksOf who boards + (if decide (who = mover) then 1 else 0).
Proof.
  intros Hrow Hc. unfold marksOf, idx, setIdx, Cell in *.
  destruct (0 <=? b); [|done]. destruct (0 <=? c); [|done].
  destruct (concat_insert boards (Z.to_nat b) row
              (<[Z.to_nat c := Some (Sym mover)]> row) Hrow)
    as (pre & post & -> & ->).
  rewrite !filter_app, !length_app.
  pose proof (filter_length_insert (λ cell : option Mark, cell = Some (Sym who))
                row (Z.to_nat c) None (Some (Sym mover)) Hc) as Hcount.
  repeat case_decide; simplify_eq; lia.
Qed.

(** X12: the marks on the boards and the turn always fit together: in a
    room the server holds, X and O have placed equally many marks when X
    is to move, and X has placed one more when O is to move. *)
Theorem marks_follow_turn (room : GameRoom) :
  reachable room →
  marksOf X (boards room) - marksOf O (boards room)
  = match currentPlayer room with X => 0 | O => 1 end.
Proof.
  induction 1 as [roomId playerId now room Hc
                 |room playerId now Hr IH
                 |room playerId boardIndex cellIndex now Hr IH
                 |room playerId now Hr IH].
  - unfold createRoom in Hc. case_bool_decide; [done|]. injection Hc as <-.
    reflexivity.
  - unfold handleJoinRoom. destruct (includes _ _); [done|].
    by destruct (2 <=? _).
  - unfold handleMakeMove.
    destruct (_ || _ || _); [done|].
    destruct (gameOver room); [done|].
    destruct (_ && _ && _); [done|].
    destruct (is_null (idx (mainBoard room) boardIndex)); [|done]. simpl.
    destruct (idx (boards room) boardIndex) as [row|] eqn:Hrow; [|done].
    destruct (is_null (idx row cellIndex)) eqn:Hnull; [|done]. simpl.
    apply is_null_in_range in Hnull.
    rewrite !(marksOf_move _ _ _ _ _ _ Hrow Hnull).
    destruct (currentPlayer room); repeat case_decide; simpl; try done; lia.
  - unfold handleResetGame. case_bool_decide; [done|reflexivity].
Qed.

Lemma marks_follow_turn_witness :
  reachable (play twoPlayers 2 beforeWin)
  ∧ marksOf X (boards (play twoPlayers 2 beforeWin)) = 8
  ∧ marksOf X (boards (play twoPlayers 2 beforeWin))
    - marksOf O (boards (play twoPlayers 2 beforeWin))
    = match currentPlayer (play twoPlayers 2 beforeWin) with X => 0 | O => 1 end.
Proof.
  assert (reachable (play twoPlayers 2 beforeWin)) as Hr
    by apply reachable_play, reachable_twoPlayers.
  split; [exact Hr|]. split; [reflexivity|].
  apply (marks_follow_turn _ Hr).
Defined.

End CountFacts.

(** ** The registry and the endpoints *)

Module ServerFacts.
Import Server.


Lemma handlers_keep_id (room : Room.GameRoom) (playerId : string)
    (boardIndex cellIndex now : Z) :
  Room.id (Room.handleJoinRoom room playerId now).2 = Room.id room
  ∧ Room.id (Room.handleMakeMove room playerId boardIndex cellIndex now).2
    = Room.id room
  ∧ Room.id (Room.handleResetGame room playerId now).2 = Room.id room.
Proof.
  split; [|split].
  - unfold Room.handleJoinRoom. by repeat case_match.
  - by destruct (MembershipFacts.move_keeps_members
                   room playerId boardIndex cellIndex now) as (-> & _).
  - by destruct (MembershipFacts.reset_keeps_members room playerId now) as (-> & _).
Qed.

(** X14: every room a server that started empty holds under some code
    is a room reached by creation, joins, moves and resets (so all
    properties of such rooms hold for it), and its [id] is that code. *)
Theorem registry_rooms_reachable (rooms : Registry) :
  reachable rooms →
  ∀ code room, rooms !! code = Some room →
               Room.reachable room ∧ Room.id room = code.
Proof.
  induction 1 as [|rooms roomId playerId now Hr IH|rooms roomId data now Hr IH];
    intros code room.
  - by rewrite lookup_empty.
  - unfold create. destruct (Room.createRoom roomId playerId now) as [fresh|] eqn:Hc;
      simpl; [|by apply IH].
    destruct (decide (roomId = code)) as [->|Hne].
    + rewrite lookup_insert_eq. intros [= <-].
      split; [by eapply Room.reach_create|].
      unfold Room.createRoom in Hc. case_bool_decide; [done|]. by injection Hc as <-.
    + rewrite lookup_insert_ne by done. by apply IH.
  - unfold POST. destruct (rooms !! roomId) as [held|] eqn:Hheld; [|by apply IH].
    destruct (IH _ _ Hheld) as [Hreach Hid].
    destruct (handlers_keep_id held (playerId data) (boardIndex data)
                               (cellIndex data) now) as (Hj & Hm & Hreset).
    repeat case_bool_decide; simpl; try by apply IH.
    all: destruct (decide (roomId = code)) as [->|Hne];
      [rewrite lookup_insert_eq; intros [= <-]
      |rewrite lookup_insert_ne by done; by apply IH].
    + split; [by apply Room.reach_join|congruence].
    + split; [by apply Room.reach_move|congruence].
    + split; [by apply Room.reach_reset|congruence].
Qed.

Lemma registry_rooms_reachable_witness :
  let rooms :=
    (POST (create ∅ "ROOM42" "alice" 0).2 "ROOM42"
          {| action := "join"; playerId := "bob"; boardIndex := 0; cellIndex := 0 |}
          1).2 in
  reachable rooms
  ∧ ∀ code room, rooms !! code = Some room →
                 Room.reachable room ∧ Room.id room = code.
Proof.
  assert (reachable
            (POST (create ∅ "ROOM42" "alice" 0).2 "ROOM42"
                  {| action := "join"; playerId := "bob";
                     boardIndex := 0; cellIndex := 0 |} 1).2) as Hr
    by apply reach_post, reach_create, reach_start.
  split; [exact Hr|]. apply (registry_rooms_reachable _ Hr).
Defined.

End ServerFacts.

(** ** The polling client *)

Module ClientFacts.
Import Room RoomFacts RoomClaims MoveClaims.

(** X15: polling delivers every change of the game and of the players: a
    client that holds the room as it was before a request handled at a
    later time than the room's stamp adopts the room the request left
    behind, for every move, reset and join; the one exception is a join
    that adds a spectator, which leaves players and game as they were. *)
Theorem poll_misses_only_spectators (room : GameRoom) (playerId : string)
    (boardIndex cellIndex now : Z) :
  lastUpdateTime room < now →
  let moved := (handleMakeMove room playerId boardIndex cellIndex now).2 in
  let reset := (handleResetGame room playerId now).2 in
  let joined := (handleJoinRoom room playerId now).2 in
  Client.poll room (Some moved) = Some moved
  ∧ Client.poll room (Some reset) = Some reset
  ∧ (Client.poll room (Some joined) = Some joined
     ∨ (players joined = players room ∧ gameState joined = gameState room
        ∧ spectators joined = spectators room ++ [playerId])).
Proof.
  intros Hlater. unfold Client.poll. split; [|split].
  - unfold handleMakeMove.
    repeat case_match; simpl in *; try done; try lia; by rewrite Z.ltb_irrefl.
  - unfold handleResetGame.
    repeat case_match; simpl in *; try done; try lia; by rewrite Z.ltb_irrefl.
  - unfold handleJoinRoom. destruct room; simpl in *.
    destruct (includes _ playerId); simpl;
      [left; by rewrite Z.ltb_irrefl|].
    destruct (2 <=? _); simpl.
    + destruct (includes _ playerId); simpl;
        [left; by rewrite Z.ltb_irrefl|right; repeat split; reflexivity].
    + left. by rewrite (proj2 (Z.ltb_lt _ _) Hlater).
Qed.

Lemma poll_misses_only_spectators_witness :
  lastUpdateTime twoPlayers < 2
  ∧ Client.poll twoPlayers (Some (handleMakeMove twoPlayers "alice" 4 4 2).2)
    = Some (handleMakeMove twoPlayers "alice" 4 4 2).2.
Proof.
  assert (lastUpdateTime twoPlayers < 2) as Hlater by (simpl; lia).
  split; [exact Hlater|].
  apply (poll_misses_only_spectators twoPlayers "alice" 4 4 2 Hlater).
Defined.

(** X16: the client loses the routing to sub-board 0.  When a room the
    server holds routes the player to move to sub-board 0, the game
    fields the client derives from its copy carry [nextBoardIndex] -1
    (0 is falsy in [room?.nextBoardIndex || -1]); the button of every
    cell of any other unresolved sub-board is then enabled for that
    player, and the server answers the move with "Invalid board". *)
Theorem client_view_drops_board_zero (room : GameRoom) (playerId : string)
    (boardIndex cellIndex now : Z) (playAgainstAI : bool) (aiPlayer : Symbol) :
  reachable room → gameOver room = false → nextBoardIndex room = 0 →
  symbolOf room playerId = Some (currentPlayer room) →
  boardIndex ≠ 0 → idx (mainBoard room) boardIndex = Some None →
  Local.nextBoardIndex (Client.view (Some room)) = -1
  ∧ Component.cellDisabled
      (Client.view (Some room))
      {| Component.gameMode := Component.MultiplayerMode;
         Component.playAgainstAI := playAgainstAI;
         Component.aiPlayer := aiPlayer;
         Component.aiThinking := false;
         Component.playerSymbol := Some (Store.Plays (currentPlayer room)) |}
      boardIndex = false
  ∧ handleMakeMove room playerId boardIndex cellIndex now
    = (RError "Invalid board", room).
Proof.
  intros Hr Hover Hnext Hsym Hne Hopen.
  pose proof (reachable_invariant _ Hr) as [_ Hp _ _ _].
  destruct (GameFacts.reachable_next_board _ Hr) as [Hfree|[_ Hzero]]; [lia|].
  rewrite Hnext in Hzero.
  split; [|split].
  - simpl. by rewrite Hnext.
  - unfold Component.cellDisabled. simpl. rewrite Hover, Hnext, Hopen. simpl.
    destruct (currentPlayer room); repeat case_bool_decide; simpl; congruence.
  - unfold handleMakeMove.
    rewrite (proj2 (turn_guard_spec room playerId Hp) Hsym), Hover, Hnext, Hzero.
    destruct (Z.eqb_spec 0 boardIndex); [lia|reflexivity].
Qed.

Lemma client_view_drops_board_zero_witness :
  let room := play twoPlayers 2 [(4, 0)] in
  reachable room
  ∧ Local.nextBoardIndex (Client.view (Some room)) = -1
  ∧ handleMakeMove room "bob" 5 5 3 = (RError "Invalid board", room).
Proof.
  assert (reachable (play twoPlayers 2 [(4, 0)])) as Hr
    by apply reachable_play, reachable_twoPlayers.
  split; [exact Hr|].
  destruct (client_view_drops_board_zero
              (play twoPlayers 2 [(4, 0)]) "bob" 5 5 3 false O Hr)
    as (Hview & _ & Hserver); try reflexivity; [lia|].
  split; [exact Hview|exact Hserver].
Defined.

End ClientFacts.

(** ** The local driver and its move lists *)

Module LocalFacts.
Import RoomFacts EvaluatorFacts.

Lemma local_invariant_move (s : Local.State) (boardIndex cellIndex : Z) :
  localInvariant s → localInvariant (Local.handleMove s boardIndex cellIndex).2.
Proof.
  intros Hinv. pose proof Hinv as [Hs Hw Hopen Hst]. unfold Local.handleMove.
  destruct (Local.gameOver s) eqn:Hover; [done|].
  destruct (_ && _ && _); [done|].
  destruct (is_null (idx (Local.mainBoard s) boardIndex)) eqn:Hmain; [|done]. simpl.
  apply is_null_in_range in Hmain.
  destruct (idx (Local.boards s) boardIndex) as [row|] eqn:Hrow; [|done].
  destruct (is_null (idx row cellIndex)) eqn:Hcell; [|done]. simpl.
  set (row1 := setIdx row cellIndex (Some (Sym (Local.currentPlayer s)))).
  pose proof (idx_Some_range _ _ _ Hmain) as Hbm.
  pose proof (idx_Some_range _ _ _ Hrow) as Hbb.
  assert (∀ main1 : list Cell,
            idx main1 boardIndex = Some (checkBoardWinner row1) →
            (∀ i, i ≠ boardIndex → idx main1 i = idx (Local.mainBoard s) i) →
            ∀ i rowi, idx (setIdx (Local.boards s) boardIndex row1) i = Some rowi →
                      idx main1 i = Some (checkBoardWinner rowi)) as Hstatus.
  { intros main1 Hat Hother i rowi Hi. destruct (decide (i = boardIndex)) as [->|Hne].
    - rewrite idx_setIdx_eq in Hi by done. by injection Hi as <-.
    - rewrite idx_setIdx_ne in Hi by done. rewrite Hother by done. by apply Hst. }
  destruct (checkBoardWinner row1) as [m|] eqn:Hboard; simpl.
  - destruct (checkBoardWinner (setIdx (Local.mainBoard s) boardIndex (Some m)))
      as [w|] eqn:Hgame; simpl; (split; simpl);
      try (by apply shape_setIdx_main, shape_setIdx);
      try (apply Hstatus; [by apply idx_setIdx_eq
                          |intros i Hne; by apply idx_setIdx_ne]);
      try done.
  - split; simpl; try done; [by apply shape_setIdx|by apply Hstatus].
Qed.

Lemma local_reachable_invariant (s : Local.State) :
  Local.reachable s → localInvariant s.
Proof.
  induction 1 as [|s boardIndex cellIndex Hs IH|s Hs IH|s Hs IH].
  - split; simpl; [apply shape_empty| |done|apply status_empty].
    split; [done|]. by intros [].
  - by apply local_invariant_move.
  - unfold Local.drawEffect. destruct (Local.gameOver s) eqn:Hover; [done|]. simpl.
    pose proof (linv_open s IH Hover) as Hopen.
    by rewrite (checkBoardWinner_None_not_full _ Hopen).
  - split; simpl; [apply shape_empty| |done|apply status_empty].
    split; [done|]. by intros [].
Qed.

(** X17: the local driver keeps the state invariants too: in every state
    the component can show outside multiplayer mode, [gameOver] is true
    exactly when [winner] is not [null], and every [mainBoard[i]] is the
    evaluation of [boards[i]]. *)
Theorem local_state_invariants (s : Local.State) :
  Local.reachable s →
  (Local.gameOver s = true ↔ Local.winner s ≠ None)
  ∧ ∀ i, 0 ≤ i < 9 →
      ∃ row, idx (Local.boards s) i = Some row
             ∧ idx (Local.mainBoard s) i = Some (checkBoardWinner row).
Proof.
  intros Hr. destruct (local_reachable_invariant _ Hr) as [Hs Hw _ Hst].
  split; [done|]. intros i Hi. destruct Hs as (_ & Hb & _).
  destruct (idx_in_range (Local.boards s) i) as [row Hrow]; [lia|].
  exists row. split; [done|]. by apply Hst.
Qed.

Lemma local_state_invariants_witness :
  let s := (Local.handleMove (Local.play Local.initial beforeWin) 7 3).2 in
  Local.reachable s ∧ Local.gameOver s = true
  ∧ (Local.gameOver s = true ↔ Local.winner s ≠ None).
Proof.
  assert (Local.reachable
            (Local.handleMove (Local.play Local.initial beforeWin) 7 3).2) as Hr
    by apply Local.reach_move, DriverClaims.local_reachable_play, Local.reach_initial.
  split; [exact Hr|]. split; [reflexivity|].
  apply (local_state_invariants _ Hr).
Defined.

(** The active-board guard, read as a condition on the move. *)
Lemma active_board_guard (mainBoard : list Cell) (next boardIndex : Z) :
  negb (next =? -1) && negb (next =? boardIndex) && is_null (idx mainBoard next)
  = false
  ↔ (next ≠ -1 → idx mainBoard next = Some None → boardIndex = next).
Proof.
  destruct (Z.eqb_spec next (-1)) as [Hn|Hn]; simpl; [done|].
  destruct (Z.eqb_spec next boardIndex) as [Hb|Hb]; simpl; [done|].
  destruct (idx mainBoard next) as [[m|]|]; simpl; split; try done.
  intros Hb'. by destruct Hb; symmetry; apply Hb'.
Qed.

Lemma is_null_true (v : option Cell) : is_null v = true ↔ v = Some None.
Proof. by destruct v as [[m|]|]. Qed.

(** [handleMove] applies a click exactly when the game is not over and
    the guards of the position let the move through. *)
Lemma handleMove_applied (s : Local.State) (boardIndex cellIndex : Z) :
  (Local.handleMove s boardIndex cellIndex).1 = Local.Applied
  ↔ Local.gameOver s = false
    ∧ playableAt (Local.boards s) (Local.mainBoard s) (Local.nextBoardIndex s)
                 boardIndex cellIndex.
Proof.
  unfold playableAt, Local.handleMove.
  pose proof (active_board_guard (Local.mainBoard s) (Local.nextBoardIndex s)
                                 boardIndex) as Hguard.
  destruct (Local.gameOver s); [split; [done|by intros [? _]]|].
  destruct (_ && _ && _).
  { split; [done|]. intros (_ & Hb & _). by apply Hguard in Hb. }
  destruct (is_null (idx (Local.mainBoard s) boardIndex)) eqn:Hmain; simpl.
  2:{ split; [done|]. intros (_ & _ & Hm & _). by rewrite Hm in Hmain. }
  apply is_null_true in Hmain.
  destruct (idx (Local.boards s) boardIndex) as [row|] eqn:Hrow.
  2:{ split; [done|]. by intros (_ & _ & _ & row & [=] & _). }
  destruct (is_null (idx row cellIndex)) eqn:Hcell; simpl.
  2:{ split; [done|]. intros (_ & _ & _ & row' & [= <-] & Hc). by rewrite Hc in Hcell. }
  apply is_null_true in Hcell.
  split.
  - intros _. split; [done|]. split; [by apply Hguard|]. split; [done|]. by exists row.
  - intros _. by repeat case_match.
Qed.

(** X18: the button of a cell and the click handler agree: in local
    two-player mode, while the AI is not thinking, [handleMove] applies a
    click on a cell exactly when the button of that cell is not disabled
    and the cell is empty. *)
Theorem enabled_empty_cell_is_applied (s : Local.State) (ui : Component.Ui)
    (boardIndex cellIndex : Z) :
  Component.gameMode ui = Component.LocalMode →
  Component.aiThinking ui = false →
  (Local.handleMove s boardIndex cellIndex).1 = Local.Applied
  ↔ Component.cellDisabled s ui boardIndex = false
    ∧ ∃ row, idx (Local.boards s) boardIndex = Some row
             ∧ idx row cellIndex = Some None.
Proof.
  intros Hmode Hthink. rewrite handleMove_applied.
  unfold playableAt, Component.cellDisabled. rewrite Hmode, Hthink. simpl.
  rewrite !orb_false_r.
  rewrite <- (active_board_guard (Local.mainBoard s) (Local.nextBoardIndex s)
                                  boardIndex).
  rewrite <- (is_null_true (idx (Local.mainBoard s) boardIndex)).
  destruct (Local.gameOver s); simpl; [by split; intros [? ?]|].
  destruct (_ && _ && _); simpl; [split; [by intros (_ & ? & _)|by intros [? _]]|].
  destruct (is_null (idx (Local.mainBoard s) boardIndex)); simpl;
    intuition congruence.
Qed.

Lemma enabled_empty_cell_is_applied_witness :
  (Local.handleMove Local.initial 4 4).1 = Local.Applied
  ↔ Component.cellDisabled
      Local.initial
      {| Component.gameMode := Component.LocalMode;
         Component.playAgainstAI := false; Component.aiPlayer := O;
         Component.aiThinking := false; Component.playerSymbol := None |} 4
    = false
    ∧ ∃ row, idx (Local.boards Local.initial) 4 = Some row ∧ idx row 4 = Some None.
Proof.
  apply (enabled_empty_cell_is_applied
           Local.initial
           {| Component.gameMode := Component.LocalMode;
              Component.playAgainstAI := false; Component.aiPlayer := O;
              Component.aiThinking := false; Component.playerSymbol := None |} 4 4);
    reflexivity.
Defined.

End LocalFacts.

(** ** Move generation and the AI turn *)

Module SearchFacts.
Import Search RoomFacts EvaluatorFacts LocalFacts SearchClaims.

Lemma boardMoves_elem (boards : list (list Cell)) (b : Z) (row : list Cell) :
  idx boards b = Some row → length row = 9%nat →
  ∃ moves, boardMoves boards b = Some moves
           ∧ ∀ b' c, (b', c) ∈ moves ↔ b' = b ∧ idx row c = Some None.
Proof.
  intros Hrow Hlen. unfold boardMoves. rewrite Hrow. eexists. split; [done|].
  intros b' c. rewrite list_elem_of_fmap. split.
  - intros (c' & [= -> ->] & Hc%list_elem_of_filter). split; [done|].
    by apply is_null_true, Hc.
  - intros [-> Hc]. exists c. split; [done|]. apply list_elem_of_filter.
    split; [by apply is_null_true|].
    apply elem_of_seqZ. apply idx_Some_range in Hc. lia.
Qed.

Lemma allMoves_elem (boards : list (list Cell)) (mainBoard : list Cell)
    (indices : list Z) :
  shape boards mainBoard →
  ∃ moves, allMoves boards mainBoard indices = Some moves
           ∧ ∀ b c, (b, c) ∈ moves ↔
                    b ∈ indices ∧ idx mainBoard b = Some None
                    ∧ ∃ row, idx boards b = Some row ∧ idx row c = Some None.
Proof.
  intros Hs. induction indices as [|i rest (later & IH & Hlater)]; simpl.
  - exists []. split; [done|]. intros b c. split; [by intros ?%elem_of_nil|].
    by intros (?%elem_of_nil & _).
  - destruct (is_null (idx mainBoard i)) eqn:Hi.
    + apply is_null_true in Hi.
      destruct (shape_row _ _ i Hs) as (row & Hrow & Hlen); [by eexists|].
      destruct (boardMoves_elem _ _ _ Hrow Hlen) as (here & -> & Hhere).
      rewrite IH. simpl. eexists. split; [done|]. intros b c.
      rewrite elem_of_app, Hhere, Hlater, elem_of_cons. split.
      * intros [[-> Hc]|(Hin & Hb & Hc)]; [|by auto].
        split; [by left|]. split; [done|]. by exists row.
      * intros ([->|Hin] & Hb & rowb & Hrowb & Hc); [|right; by eauto].
        left. split; [done|]. congruence.
    + exists later. split; [done|]. intros b c. rewrite Hlater, elem_of_cons.
      split; [by intros (? & ? & ?); auto|].
      intros ([->|Hin] & Hb & Hc); [|by auto].
      rewrite Hb in Hi. done.
Qed.

(** The moves a node generates are exactly the moves that pass the guards
    of the position. *)
Lemma validMoves_spec (boards : list (list Cell)) (mainBoard : list Cell)
    (next : Z) :
  shape boards mainBoard →
  ∃ moves, validMoves boards mainBoard next = Some moves
           ∧ ∀ b c, (b, c) ∈ moves ↔ playableAt boards mainBoard next b c.
Proof.
  intros Hs. unfold validMoves, playableAt.
  destruct (allMoves_elem boards mainBoard (seqZ 0 9) Hs) as (every & Hevery & Hall).
  assert (∀ b, idx mainBoard b = Some None → b ∈ seqZ 0 9) as Hrange.
  { intros b Hb. apply elem_of_seqZ. apply idx_Some_range in Hb.
    destruct Hs as (Hm & _). rewrite Hm in Hb. lia. }
  destruct (Z.eqb_spec next (-1)) as [Hn|Hn]; simpl.
  - exists every. split; [done|]. intros b c. rewrite Hall. split.
    + intros (_ & Hb & Hc). by split.
    + intros (_ & Hb & Hc). split; [by apply Hrange|done].
  - destruct (is_null (idx mainBoard next)) eqn:Hnext.
    + apply is_null_true in Hnext.
      destruct (shape_row _ _ next Hs) as (row & Hrow & Hlen); [by eexists|].
      destruct (boardMoves_elem _ _ _ Hrow Hlen) as (here & -> & Hhere).
      exists here. split; [done|]. intros b c. rewrite Hhere. split.
      * intros [-> Hc]. split; [done|]. split; [done|]. by exists row.
      * intros (Hb & _ & rowb & Hrowb & Hc).
        rewrite (Hb Hn Hnext) in Hrowb. split; [by apply Hb|]. congruence.
    + exists every. split; [done|]. intros b c. rewrite Hall. split.
      * intros (_ & Hb & Hc). split; [|done]. intros _ Hnull.
        rewrite Hnull in Hnext. done.
      * intros (_ & Hb & Hc). split; [by apply Hrange|done].
Qed.

(** X19: the move list of the search is exact: on a well-formed position
    whose game is not over, the moves a node of [minimax] generates are
    exactly the clicks [handleMove] would apply. *)
Theorem generated_moves_are_the_applicable_ones (s : Local.State) :
  shape (Local.boards s) (Local.mainBoard s) → Local.gameOver s = false →
  ∃ moves,
    validMoves (Local.boards s) (Local.mainBoard s) (Local.nextBoardIndex s)
    = Some moves
    ∧ ∀ b c, (b, c) ∈ moves ↔ (Local.handleMove s b c).1 = Local.Applied.
Proof.
  intros Hs Hover.
  destruct (validMoves_spec _ _ (Local.nextBoardIndex s) Hs) as (moves & Hmoves & Hspec).
  exists moves. split; [done|]. intros b c.
  rewrite Hspec, handleMove_applied. by intuition.
Qed.

Lemma generated_moves_are_the_applicable_ones_witness :
  ∃ moves,
    validMoves (Local.boards Local.initial) (Local.mainBoard Local.initial)
               (Local.nextBoardIndex Local.initial) = Some moves
    ∧ ∀ b c, (b, c) ∈ moves ↔ (Local.handleMove Local.initial b c).1 = Local.Applied.
Proof.
  apply (generated_moves_are_the_applicable_ones Local.initial);
    [apply shape_empty|reflexivity].
Defined.

Section Picks.
Variable child : Move → Num → Num → option Result.
Hypothesis child_finite :
  ∀ mv a b r, child mv a b = Some r → ∃ z, score r = Fin z.

Lemma maxLoop_tail (moves : list Move) :
  ∀ alpha beta z first R,
    maxLoop child moves alpha beta (Fin z) (Some first) = Some R →
    (∃ z', score R = Fin z')
    ∧ ∃ mv, (mv = first ∨ mv ∈ moves) ∧ move R = Some mv.
Proof.
  induction moves as [|mv rest IH]; intros alpha beta z first R; simpl.
  - intros [= <-]. simpl. split; [by eexists|]. exists first. by split; [left|].
  - destruct (child mv alpha beta) as [r|] eqn:Hr; simpl; [|done].
    destruct (child_finite _ _ _ _ Hr) as [zr Hzr]. rewrite Hzr. simpl.
    destruct (z <? zr); destruct (leb beta _).
    + intros [= <-]. simpl. split; [by eexists|]. exists mv. split; [right; by left|done].
    + intros (Hfin & mv' & Hwhere & Hmove)%IH. split; [done|]. exists mv'.
      split; [|done]. rewrite elem_of_cons. tauto.
    + intros [= <-]. simpl. split; [by eexists|]. exists first. by split; [left|].
    + intros (Hfin & mv' & Hwhere & Hmove)%IH. split; [done|]. exists mv'.
      split; [|done]. rewrite elem_of_cons. tauto.
Qed.

Lemma minLoop_tail (moves : list Move) :
  ∀ alpha beta z first R,
    minLoop child moves alpha beta (Fin z) (Some first) = Some R →
    (∃ z', score R = Fin z')
    ∧ ∃ mv, (mv = first ∨ mv ∈ moves) ∧ move R = Some mv.
Proof.
  induction moves as [|mv rest IH]; intros alpha beta z first R; simpl.
  - intros [= <-]. simpl. split; [by eexists|]. exists first. by split; [left|].
  - destruct (child mv alpha beta) as [r|] eqn:Hr; simpl; [|done].
    destruct (child_finite _ _ _ _ Hr) as [zr Hzr]. rewrite Hzr. simpl.
    destruct (zr <? z); destruct (leb _ alpha).
    + intros [= <-]. simpl. split; [by eexists|]. exists mv. split; [right; by left|done].
    + intros (Hfin & mv' & Hwhere & Hmove)%IH. split; [done|]. exists mv'.
      split; [|done]. rewrite elem_of_cons. tauto.
    + intros [= <-]. simpl. split; [by eexists|]. exists first. by split; [left|].
    + intros (Hfin & mv' & Hwhere & Hmove)%IH. split; [done|]. exists mv'.
      split; [|done]. rewrite elem_of_cons. tauto.
Qed.

(** A loop over at least one move returns a finite score and one of the
    moves. *)
Lemma maxLoop_picks (mv : Move) (rest : list Move) (alpha beta : Num) (R : Result) :
  maxLoop child (mv :: rest) alpha beta NegInf None = Some R →
  (∃ z, score R = Fin z) ∧ ∃ mv', mv' ∈ mv :: rest ∧ move R = Some mv'.
Proof.
  simpl. destruct (child mv alpha beta) as [r|] eqn:Hr; simpl; [|done].
  destruct (child_finite _ _ _ _ Hr) as [zr Hzr]. rewrite Hzr. simpl.
  destruct (leb beta _).
  - intros [= <-]. simpl. split; [by eexists|]. exists mv. by split; [left|].
  - intros (Hfin & mv' & Hwhere & Hmove)%maxLoop_tail. split; [done|]. exists mv'.
    split; [|done]. rewrite elem_of_cons. tauto.
Qed.

Lemma minLoop_picks (mv : Move) (rest : list Move) (alpha beta : Num) (R : Result) :
  minLoop child (mv :: rest) alpha beta PosInf None = Some R →
  (∃ z, score R = Fin z) ∧ ∃ mv', mv' ∈ mv :: rest ∧ move R = Some mv'.
Proof.
  simpl. destruct (child mv alpha beta) as [r|] eqn:Hr; simpl; [|done].
  destruct (child_finite _ _ _ _ Hr) as [zr Hzr]. rewrite Hzr. simpl.
  destruct (leb _ alpha).
  - intros [= <-]. simpl. split; [by eexists|]. exists mv. by split; [left|].
  - intros (Hfin & mv' & Hwhere & Hmove)%minLoop_tail. split; [done|]. exists mv'.
    split; [|done]. rewrite elem_of_cons. tauto.
Qed.
End Picks.

#[local] Opaque maxLoop minLoop.

(** The search never returns an infinite score. *)
Lemma minimax_finite (s : Local.State) (player : Symbol) (depth : nat) :
  ∀ alpha beta isMaximizing boards mainBoard next R,
    minimax s depth alpha beta isMaximizing player boards mainBoard next = Some R →
    ∃ z, score R = Fin z.
Proof.
  induction depth as [|depth IH];
    intros alpha beta isMaximizing boards mainBoard next R; simpl.
  - repeat case_bool_decide; try (intros [= <-]; by eexists).
    destruct (evaluateBoard s player); simpl; [|done]. intros [= <-]. by eexists.
  - repeat case_bool_decide; try (intros [= <-]; by eexists).
    destruct (validMoves boards mainBoard next) as [[|mv moves]|]; simpl;
      [intros [= <-]; by eexists| |done].
    destruct isMaximizing.
    + intros HR. eapply maxLoop_picks; [|exact HR].
      intros mv' a b r. simpl.
      destruct (simulate _ _ _ mv') as [[[nb nm] nn]|]; simpl; [|done]. apply IH.
    + intros HR. eapply minLoop_picks; [|exact HR].
      intros mv' a b r. simpl.
      destruct (simulate _ _ _ mv') as [[[nb nm] nn]|]; simpl; [|done]. apply IH.
Qed.

(** At a node that is not resolved and has moves, a search of depth at
    least 1 answers with one of the generated moves. *)
Lemma minimax_picks_generated (s : Local.State) (player : Symbol) (depth : nat)
    (alpha beta : Num) (isMaximizing : bool)
    (boards : list (list Cell)) (mainBoard : list Cell) (next : Z)
    (mv : Move) (moves : list Move) (R : Result) :
  checkBoardWinner mainBoard = None →
  validMoves boards mainBoard next = Some (mv :: moves) →
  minimax s (S depth) alpha beta isMaximizing player boards mainBoard next = Some R →
  ∃ mv', mv' ∈ mv :: moves ∧ move R = Some mv'.
Proof.
  intros Hopen Hmoves. simpl. rewrite Hopen, Hmoves. simpl.
  repeat case_bool_decide; try done.
  destruct isMaximizing; intros HR.
  - eapply maxLoop_picks; [|exact HR].
    intros mv' a b r. simpl.
    destruct (simulate _ _ _ mv') as [[[nb nm] nn]|]; simpl; [|done].
    apply minimax_finite.
  - eapply minLoop_picks; [|exact HR].
    intros mv' a b r. simpl.
    destruct (simulate _ _ _ mv') as [[[nb nm] nn]|]; simpl; [|done].
    apply minimax_finite.
Qed.

#[local] Transparent maxLoop minLoop.

(** X20: the AI always plays a legal move: in every state the component
    can show in which the game is not over, an AI turn of the player to
    move at any depth from 1 on ends without a [TypeError], and its
    result is the state after a click that [handleMove] applies. *)
Theorem ai_turn_applies_a_move (s : Local.State) (depth : nat) :
  Local.reachable s → Local.gameOver s = false →
  ∃ b c,
    Component.makeAIMove s (S depth) (Local.currentPlayer s)
    = Some (Local.handleMove s b c).2
    ∧ (Local.handleMove s b c).1 = Local.Applied.
Proof.
  intros Hr Hover.
  pose proof (local_reachable_invariant _ Hr) as [Hs _ Hopen Hst].
  specialize (Hopen Hover).
  destruct (validMoves_spec _ _ (Local.nextBoardIndex s) Hs) as (moves & Hmoves & Hspec).
  (* some move passes the guards *)
  assert (∃ b c, playableAt (Local.boards s) (Local.mainBoard s)
                            (Local.nextBoardIndex s) b c) as (b0 & c0 & Hplay).
  { assert (∀ i, idx (Local.mainBoard s) i = Some None →
                 ∃ row c, idx (Local.boards s) i = Some row ∧ idx row c = Some None)
      as Hcell.
    { intros i Hi. destruct (shape_row _ _ i Hs) as (row & Hrow & _); [by eexists|].
      specialize (Hst _ _ Hrow). rewrite Hi in Hst. injection Hst as Hst.
      destruct (GameFacts.open_board_has_empty_slot row) as [c Hc]; [done|].
      by exists row, c. }
    destruct (decide (Local.nextBoardIndex s ≠ -1
                      ∧ idx (Local.mainBoard s) (Local.nextBoardIndex s) = Some None))
      as [[Hn Hnull]|Hfree].
    - destruct (Hcell _ Hnull) as (row & c & Hrow & Hc).
      exists (Local.nextBoardIndex s), c. repeat split; try done. by exists row.
    - destruct (GameFacts.open_board_has_empty_slot _ Hopen) as [i Hi].
      destruct (Hcell _ Hi) as (row & c & Hrow & Hc).
      exists i, c. split; [|split; [done|by exists row]].
      intros Hn Hnull. by destruct Hfree. }
  apply Hspec in Hplay.
  destruct moves as [|mv moves]; [by apply elem_of_nil in Hplay|].
  (* the search returns *)
  destruct (minimaxUnpruned_total s (Local.currentPlayer s) (S depth) Hs true
              _ _ (Local.nextBoardIndex s) Hs) as [full Hfull].
  destruct (minimax_agree s (Local.currentPlayer s) (S depth) _ _ _ _
              NegInf PosInf full eq_refl Hfull) as (R & HR & _).
  destruct (minimax_picks_generated _ _ _ _ _ _ _ _ _ _ _ _ Hopen Hmoves HR)
    as ([b c] & Hin & Hmove).
  apply Hspec in Hin.
  assert ((Local.handleMove s b c).1 = Local.Applied) as Happlied
    by (apply handleMove_applied; by split).
  exists b, c. split; [|done].
  unfold Component.makeAIMove, aiMove. rewrite Hover, HR. simpl.
  rewrite bool_decide_eq_false_2 by (by intros []). simpl. rewrite Hmove.
  destruct (Local.handleMove s b c) as [[] s']; simpl in *; done.
Qed.

Lemma ai_turn_applies_a_move_witness :
  Local.reachable (Local.play Local.initial centreOpening)
  ∧ ∃ b c,
      Component.makeAIMove (Local.play Local.initial centreOpening) 2
        (Local.currentPlayer (Local.play Local.initial centreOpening))
      = Some (Local.handleMove (Local.play Local.initial centreOpening) b c).2
      ∧ (Local.handleMove (Local.play Local.initial centreOpening) b c).1
        = Local.Applied.
Proof.
  assert (Local.reachable (Local.play Local.initial centreOpening)) as Hr
    by apply DriverClaims.local_reachable_play, Local.reach_initial.
  split; [exact Hr|].
  apply (ai_turn_applies_a_move _ 1 Hr). reflexivity.
Defined.

End SearchFacts.

(** ** The component's own move list *)

Module ComponentFacts.
Import Search RoomFacts LocalFacts.

(** On a sub-board of nine cells, mapping the cells to their index or -1
    and dropping the -1 gives the empty cells in increasing order, as the
    loop of [minimax] does. *)
Lemma empty_cells_of_row (row : list Cell) :
  length row = 9%nat →
  filter (λ index, index ≠ -1)
    (imap (λ index (cell : Cell),
             if bool_decide (cell = None) then Z.of_nat index else -1) row)
  = filter (λ cellIndex, is_null (idx row cellIndex) = true) (seqZ 0 9).
Proof.
  intros Hlen.
  do 9 (destruct row as [|? row]; [done|]). destruct row; [|done].
  repeat match goal with c : Cell |- _ => destruct c as [?|] end; reflexivity.
Qed.

Lemma getValidMoves_boardMoves (s : Local.State) (boardIndex : Z) :
  shape (Local.boards s) (Local.mainBoard s) →
  is_null (idx (Local.mainBoard s) boardIndex) = true →
  (here ← Component.getValidMoves s boardIndex;
   Some (map (λ cellIndex, (boardIndex, cellIndex)) here))
  = boardMoves (Local.boards s) boardIndex.
Proof.
  intros Hs Hnull. unfold Component.getValidMoves, boardMoves. rewrite Hnull. simpl.
  destruct (shape_row _ _ boardIndex Hs) as (row & -> & Hlen).
  { apply is_null_true in Hnull. by eexists. }
  simpl. by rewrite empty_cells_of_row.
Qed.

Lemma everyBoard_allMoves (s : Local.State) (indices : list Z) :
  shape (Local.boards s) (Local.mainBoard s) →
  Component.everyBoard s indices
  = allMoves (Local.boards s) (Local.mainBoard s) indices.
Proof.
  intros Hs. induction indices as [|i rest IH]; simpl; [done|].
  destruct (is_null (idx (Local.mainBoard s) i)) eqn:Hnull; [|done].
  rewrite <- (getValidMoves_boardMoves s i Hs Hnull), IH.
  by destruct (Component.getValidMoves s i).
Qed.

(** X21: two generators, one list: on a well-formed state the move list
    [getAllValidMoves] computes from the state cells is the list, in the
    same order, that [minimax] generates at the root of its search. *)
Theorem getAllValidMoves_is_root_move_list (s : Local.State) :
  shape (Local.boards s) (Local.mainBoard s) →
  Component.getAllValidMoves s
  = validMoves (Local.boards s) (Local.mainBoard s) (Local.nextBoardIndex s).
Proof.
  intros Hs. unfold Component.getAllValidMoves, validMoves.
  destruct (negb _); [|by apply everyBoard_allMoves].
  destruct (is_null _) eqn:Hnull; [|by apply everyBoard_allMoves].
  by apply getValidMoves_boardMoves.
Qed.

Lemma getAllValidMoves_is_root_move_list_witness :
  shape (Local.boards (Local.play Local.initial centreOpening))
        (Local.mainBoard (Local.play Local.initial centreOpening))
  ∧ Component.getAllValidMoves (Local.play Local.initial centreOpening)
    = Some [(4, 1); (4, 2); (4, 3); (4, 4); (4, 5); (4, 6); (4, 7)]
  ∧ Component.getAllValidMoves (Local.play Local.initial centreOpening)
    = validMoves (Local.boards (Local.play Local.initial centreOpening))
                 (Local.mainBoard (Local.play Local.initial centreOpening))
                 (Local.nextBoardIndex (Local.play Local.initial centreOpening)).
Proof.
  assert (shape (Local.boards (Local.play Local.initial centreOpening))
                (Local.mainBoard (Local.play Local.initial centreOpening))) as Hs.
  { repeat split; try reflexivity. repeat constructor. }
  split; [exact Hs|]. split; [reflexivity|].
  apply (getAllValidMoves_is_root_move_list _ Hs).
Defined.

End ComponentFacts.

(** ** The heuristic evaluator *)

Module HeuristicFacts.
Import Search.

Lemma other_other (p : Symbol) : other (other p) = p.
Proof. by destruct p. Qed.

Lemma eight_lines : length WINNING_COMBINATIONS = 8%nat.
Proof. reflexivity. Qed.

#[local] Opaque WINNING_COMBINATIONS.

Lemma scoreLine_opposite (weight : Z) (p : Symbol) (board : list Cell)
    (score : Z) (line : Z * Z * Z) :
  scoreLine weight (other p) board (- score) line
  = - scoreLine weight p board score line.
Proof.
  destruct line as [[a b] c]. unfold scoreLine. rewrite other_other.
  set (pc := countOf p _). set (oc := countOf (other p) _).
  destruct (Z.ltb_spec 0 pc), (Z.eqb_spec oc 0), (Z.ltb_spec 0 oc),
           (Z.eqb_spec pc 0); simpl; lia.
Qed.

Lemma scoreLines_opposite (weight : Z) (p : Symbol) (board : list Cell)
    (lines : list (Z * Z * Z)) (score : Z) :
  fold_left (scoreLine weight (other p) board) lines (- score)
  = - fold_left (scoreLine weight p board) lines score.
Proof.
  revert score. induction lines as [|line rest IH]; intros score; simpl; [done|].
  by rewrite scoreLine_opposite, IH.
Qed.

Lemma scoreBoards_opposite (p : Symbol) (boards : list (list Cell))
    (mainBoard : list Cell) (indices : list Z) (score : Z) :
  scoreBoards (other p) boards mainBoard indices (- score)
  = Z.opp <$> scoreBoards p boards mainBoard indices score.
Proof.
  revert score. induction indices as [|i rest IH]; intros score; simpl; [done|].
  destruct (is_null (idx mainBoard i)); [|apply IH].
  destruct (idx boards i) as [row|]; [|done].
  by rewrite scoreLines_opposite, IH.
Qed.

(** X22: the heuristic is zero-sum: scored for the other player, a state
    gets the opposite score (and an evaluation fails for one player
    exactly when it fails for the other). *)
Theorem evaluateBoard_opposite (s : Local.State) (p : Symbol) :
  evaluateBoard s (other p) = Z.opp <$> evaluateBoard s p.
Proof.
  unfold evaluateBoard. rewrite other_other.
  destruct (checkBoardWinner (Local.mainBoard s)) as [[w|]|] eqn:Hw.
  - destruct w, p; repeat case_bool_decide; simpl in *; try congruence;
      reflexivity.
  - destruct p; repeat case_bool_decide; simpl in *; try congruence; reflexivity.
  - repeat case_bool_decide; try congruence.
    rewrite <- scoreBoards_opposite, <- scoreLines_opposite. done.
Qed.

Lemma countOf_three (who : Symbol) (x y z : option Cell) :
  0 ≤ countOf who [x; y; z] ≤ 3.
Proof.
  unfold countOf.
  match goal with
  | |- context [length ?l] =>
      assert (length l ≤ 3)%nat by (etrans; [apply length_filter|done])
  end.
  lia.
Qed.

Lemma scoreLine_step (weight : Z) (p : Symbol) (board : list Cell)
    (score : Z) (line : Z * Z * Z) :
  0 ≤ weight →
  score - 3 * weight ≤ scoreLine weight p board score line ≤ score + 3 * weight.
Proof.
  intros Hw. destruct line as [[a b] c]. unfold scoreLine.
  pose proof (countOf_three p (idx board a) (idx board b) (idx board c)).
  pose proof (countOf_three (other p) (idx board a) (idx board b) (idx board c)).
  set (pc := countOf p _) in *. set (oc := countOf (other p) _) in *.
  destruct (_ && _), (_ && _); nia.
Qed.

Lemma scoreLines_range (weight : Z) (p : Symbol) (board : list Cell)
    (lines : list (Z * Z * Z)) (score : Z) :
  0 ≤ weight →
  score - 3 * weight * Z.of_nat (length lines)
  ≤ fold_left (scoreLine weight p board) lines score
  ≤ score + 3 * weight * Z.of_nat (length lines).
Proof.
  intros Hw. revert score. induction lines as [|line rest IH]; intros score;
    simpl length; simpl fold_left; [lia|].
  pose proof (scoreLine_step weight p board score line Hw).
  pose proof (IH (scoreLine weight p board score line)). nia.
Qed.

Lemma scoreBoards_range (p : Symbol) (boards : list (list Cell))
    (mainBoard : list Cell) (indices : list Z) (score v : Z) :
  scoreBoards p boards mainBoard indices score = Some v →
  score - 24 * Z.of_nat (length indices) ≤ v
  ≤ score + 24 * Z.of_nat (length indices).
Proof.
  revert score. induction indices as [|i rest IH]; intros score; simpl scoreBoards.
  - intros [= <-]. simpl. lia.
  - simpl length. destruct (is_null (idx mainBoard i)).
    + destruct (idx boards i) as [row|]; [|done]. intros Hv%IH.
      pose proof (scoreLines_range 1 p row WINNING_COMBINATIONS score) as Hrow.
      rewrite eight_lines in Hrow. lia.
    + intros Hv%IH. lia.
Qed.

(** X23: the heuristic stays inside the terminal scores: every score of
    [evaluateBoard] lies between -1000 and 1000, and while the main board
    is not resolved it lies between -456 and 456. *)
Theorem evaluateBoard_range (s : Local.State) (p : Symbol) (v : Z) :
  evaluateBoard s p = Some v →
  -1000 ≤ v ≤ 1000
  ∧ (checkBoardWinner (Local.mainBoard s) = None → -456 ≤ v ≤ 456).
Proof.
  unfold evaluateBoard. repeat case_bool_decide; try (intros [= <-]; split; [lia|congruence]).
  intros Hv%scoreBoards_range.
  pose proof (scoreLines_range 10 p (Local.mainBoard s) WINNING_COMBINATIONS 0)
    as Hmain.
  rewrite eight_lines in Hmain. simpl length in Hv. lia.
Qed.

Lemma evaluateBoard_range_witness :
  evaluateBoard (Local.play Local.initial centreOpening) X = Some (-2)
  ∧ -1000 ≤ -2 ≤ 1000.
Proof.
  assert (evaluateBoard (Local.play Local.initial centreOpening) X = Some (-2))
    as Hv by reflexivity.
  split; [exact Hv|].
  exact (proj1 (evaluateBoard_range _ X (-2) Hv)).
Defined.

#[local] Transparent WINNING_COMBINATIONS.

End HeuristicFacts.

(** ** The in-browser store *)

Module StoreMore.
Import Store.

Lemma makeMove_cases (st : State) (boardIndex cellIndex now : Z) :
  ((makeMove st boardIndex cellIndex now).1 ≠ Returned true
   ∧ (makeMove st boardIndex cellIndex now).2 = st)
  ∨ ∃ room room',
      currentRoom st = Some room
      ∧ playerSymbol st = Some (Plays (currentPlayer room))
      ∧ (makeMove st boardIndex cellIndex now).1 = Returned true
      ∧ id room' = id room ∧ players room' = players room
      ∧ currentPlayer room' = other (currentPlayer room)
      ∧ (makeMove st boardIndex cellIndex now).2
        = {| playerId := playerId st; playerSymbol := playerSymbol st;
             currentRoom := Some room'; isHost := isHost st;
             rooms := <[id room := room']> (rooms st) |}.
Proof.
  unfold makeMove. destruct (currentRoom st) as [room|]; [|by left].
  destruct (bool_decide (playerSymbol st ≠ _)) eqn:Hturn; simpl; [by left|].
  apply bool_decide_eq_false, dec_stable in Hturn.
  destruct (bool_decide (playerSymbol st = Some Watches)); simpl; [by left|].
  destruct (gameOver room); [by left|].
  destruct (_ && _ && _); [by left|].
  destruct (negb _); [by left|].
  destruct (idx (boards room) boardIndex) as [row|]; [|by left].
  destruct (negb _); [by left|].
  right. eexists room, _. split; [done|]. split; [done|]. split; [done|].
  refine (conj _ (conj _ (conj _ eq_refl))); reflexivity.
Qed.

Lemma storeInvariant_run (me : string) (st : State) (call : Call) (now : Z) :
  storeInvariant me st → storeInvariant me (run st call now).
Proof.
  intros Hinv. pose proof Hinv as [Hme Hrooms Hcur].
  destruct call as [roomId|roomId| |boardIndex cellIndex|]; simpl.
  - split; simpl; [done| |].
    + intros code room. destruct (decide (roomId = code)) as [->|Hne].
      * rewrite lookup_insert_eq. intros [= <-]. simpl. by rewrite Hme.
      * rewrite lookup_insert_ne by done. apply Hrooms.
    + intros room [= <-]. simpl. by rewrite lookup_insert_eq.
  - unfold joinRoom. destruct (rooms st !! roomId) as [room|] eqn:Hroom; [|done].
    destruct (Hrooms _ _ Hroom) as [Hid Hplayers].
    assert (Room.includes (players room) (playerId st) = true) as ->.
    { rewrite Hplayers, Hme. apply MembershipFacts.includes_elem. by left. }
    assert (Room.indexOf (players room) (playerId st) = 0) as ->.
    { rewrite Hplayers, Hme. simpl. by rewrite bool_decide_eq_true_2. }
    split; simpl; [done|done|]. intros r [= <-]. by rewrite Hid.
  - unfold leaveRoom. destruct (currentRoom st) as [room|] eqn:Hroom; [|done].
    destruct (Hcur _ eq_refl) as (Hheld & _).
    destruct (Hrooms _ _ Hheld) as [_ Hplayers].
    assert (Room.indexOf (players room) (playerId st) = 0) as ->.
    { rewrite Hplayers, Hme. simpl. by rewrite bool_decide_eq_true_2. }
    rewrite Hplayers. simpl. split; simpl; [done| |done].
    intros code r Hr. apply lookup_delete_Some in Hr as [_ Hr]. by apply Hrooms.
  - destruct (makeMove_cases st boardIndex cellIndex now)
      as [[_ ->]|(room & room' & Hroom & _ & _ & Hid & Hplayers & _ & ->)]; [done|].
    destruct (Hcur _ Hroom) as (Hheld & Hsym & Hhost).
    destruct (Hrooms _ _ Hheld) as [_ Hone].
    split; simpl; [done| |].
    + intros code r. destruct (decide (id room = code)) as [<-|Hne].
      * rewrite lookup_insert_eq. intros [= <-]. split; congruence.
      * rewrite lookup_insert_ne by done. apply Hrooms.
    + intros r [= <-]. rewrite Hid, lookup_insert_eq. done.
  - unfold resetGame. destruct (currentRoom st) as [room|] eqn:Hroom; [|done].
    destruct (Hcur _ eq_refl) as (Hheld & Hsym & Hhost).
    destruct (Hrooms _ _ Hheld) as [_ Hone].
    destruct (_ && _); [done|]. split; simpl; [done| |].
    + intros code r. destruct (decide (id room = code)) as [<-|Hne].
      * rewrite lookup_insert_eq. by intros [= <-].
      * rewrite lookup_insert_ne by done. apply Hrooms.
    + intros r [= <-]. simpl. by rewrite lookup_insert_eq.
Qed.

Lemma reachable_storeInvariant (me : string) (st : State) :
  reachable me st → storeInvariant me st.
Proof.
  induction 1 as [|st call now _ IH]; [|by apply storeInvariant_run].
  split; simpl; [done| |done]. intros code room. by rewrite lookup_empty.
Qed.

(** X24: a store holds one participant only: in every state of a store
    that started empty, each room is stored under its own id and has
    the store's participant as its only player, and when the store is in
    a room it holds X as host and its copy is the room stored under that
    id; the branches of [joinRoom] that assign O or spectator are never
    taken. *)
Theorem store_has_one_participant (me : string) (st : State) :
  reachable me st →
  (∀ code room, rooms st !! code = Some room →
                id room = code ∧ players room = [me])
  ∧ (∀ room, currentRoom st = Some room →
             rooms st !! id room = Some room
             ∧ playerSymbol st = Some (Plays X) ∧ isHost st = true).
Proof. intros Hr. by destruct (reachable_storeInvariant _ _ Hr). Qed.

Lemma store_has_one_participant_witness :
  let st := run (run (run (empty "alice") (CallCreate "ROOM42") 0)
                     (CallMove 4 4) 1)
                (CallJoin "ROOM42") 2 in
  reachable "alice" st
  ∧ (∀ room, currentRoom st = Some room →
             rooms st !! id room = Some room
             ∧ playerSymbol st = Some (Plays X) ∧ isHost st = true).
Proof.
  assert (reachable "alice"
            (run (run (run (empty "alice") (CallCreate "ROOM42") 0)
                      (CallMove 4 4) 1)
                 (CallJoin "ROOM42") 2)) as Hr
    by (do 3 apply reach_run; apply reach_empty).
  split; [exact Hr|].
  exact (proj2 (store_has_one_participant _ _ Hr)).
Defined.

(** X25: leaving deletes the room: when a store that started empty is in
    a room and leaves it, the room is gone from the store (its only
    player has left) and the store is in no room. *)
Theorem leaving_deletes_the_room (me : string) (st : State) (room : GameRoom)
    (now : Z) :
  reachable me st → currentRoom st = Some room →
  rooms (leaveRoom st now) = delete (id room) (rooms st)
  ∧ currentRoom (leaveRoom st now) = None
  ∧ playerSymbol (leaveRoom st now) = None.
Proof.
  intros Hr Hroom. destruct (reachable_storeInvariant _ _ Hr) as [Hme Hrooms Hcur].
  destruct (Hcur _ Hroom) as (Hheld & _).
  destruct (Hrooms _ _ Hheld) as [_ Hplayers].
  unfold leaveRoom. rewrite Hroom, Hplayers, Hme. simpl.
  by rewrite bool_decide_eq_true_2.
Qed.

Lemma leaving_deletes_the_room_witness :
  let st := run (empty "alice") (CallCreate "ROOM42") 0 in
  reachable "alice" st
  ∧ currentRoom (leaveRoom st 5) = None ∧ playerSymbol (leaveRoom st 5) = None.
Proof.
  assert (reachable "alice" (run (empty "alice") (CallCreate "ROOM42") 0)) as Hr
    by (apply reach_run, reach_empty).
  split; [exact Hr|].
  exact (proj2 (leaving_deletes_the_room "alice" _ _ 5 Hr eq_refl)).
Defined.



(** X27: in the store nobody moves twice in a row: after [makeMove] has
    accepted a move, the next call of [makeMove] on the same store
    returns [false] and changes nothing, whatever the move; with one
    participant per store a game stops after its first move until it is
    reset. *)
Theorem store_no_two_moves_in_a_row (st : State)
    (boardIndex cellIndex now boardIndex' cellIndex' now' : Z) :
  (makeMove st boardIndex cellIndex now).1 = Returned true →
  makeMove (makeMove st boardIndex cellIndex now).2 boardIndex' cellIndex' now'
  = (Returned false, (makeMove st boardIndex cellIndex now).2).
Proof.
  intros Hok.
  destruct (makeMove_cases st boardIndex cellIndex now)
    as [[Hno _]|(room & room' & Hroom & Hsym & _ & _ & _ & Hturn & Hafter)].
  - done.
  - rewrite Hafter. unfold makeMove at 1. simpl. rewrite Hsym, Hturn.
    rewrite bool_decide_eq_true_2; [done|]. by destruct (currentPlayer room).
Qed.

Lemma store_no_two_moves_in_a_row_witness :
  let st := run (empty "alice") (CallCreate "ROOM42") 0 in
  (makeMove st 4 4 1).1 = Returned true
  ∧ makeMove (makeMove st 4 4 1).2 4 0 2 = (Returned false, (makeMove st 4 4 1).2).
Proof.
  split; [reflexivity|].
  apply (store_no_two_moves_in_a_row
           (run (empty "alice") (CallCreate "ROOM42") 0) 4 4 1 4 0 2).
  reflexivity.
Defined.

(** X28: the store and the server play the same game: on a room the server
    can hold, the store's [makeMove] rejects every request that
    [handleMakeMove] rejects, and where [handleMakeMove] accepts it
    accepts too and produces the same game state and time stamp. *)
Theorem store_and_server_agree (room : Room.GameRoom) (st : Store.State)
    (held : Store.GameRoom) (playerId : string) (boardIndex cellIndex now : Z) :
  Room.reachable room →
  Store.currentRoom st = Some held →
  Store.gameState held = Room.gameState room →
  (∀ s, Store.playerSymbol st = Some (Store.Plays s)
        ↔ Room.symbolOf room playerId = Some s) →
  let served := Room.handleMakeMove room playerId boardIndex cellIndex now in
  let stored := Store.makeMove st boardIndex cellIndex now in
  (served.1 ≠ Room.RSuccess → stored = (Store.Returned false, st))
  ∧ (served.1 = Room.RSuccess →
     stored.1 = Store.Returned true
     ∧ ∃ held', Store.currentRoom stored.2 = Some held'
                ∧ Store.gameState held' = Room.gameState served.2
                ∧ Store.lastUpdateTime held' = Room.lastUpdateTime served.2).
Proof. apply StoreFacts.store_makeMove_matches_room. Qed.

Lemma store_and_server_agree_witness :
  let held :=
    {| id := "ROOM42"; players := ["alice"; "bob"]; currentPlayer := X;
       boards := emptyBoards; mainBoard := emptyBoard;
       nextBoardIndex := -1; gameOver := false; winner := None;
       lastMove := None; lastUpdateTime := 1 |} in
  let st :=
    {| playerId := "alice"; playerSymbol := Some (Plays X);
       currentRoom := Some held; isHost := true; rooms := ∅ |} in
  Room.reachable Room.twoPlayers
  ∧ (Room.handleMakeMove Room.twoPlayers "alice" 4 4 2).1 = Room.RSuccess
  ∧ (makeMove st 4 4 2).1 = Returned true.
Proof.
  intros held st.
  assert (∀ s, playerSymbol st = Some (Plays s)
               ↔ Room.symbolOf Room.twoPlayers "alice" = Some s) as Hsym
    by (intros s; simpl; split; intros [= <-]; reflexivity).
  split; [apply RoomClaims.reachable_twoPlayers|]. split; [reflexivity|].
  apply (proj2 (store_and_server_agree
                  Room.twoPlayers st held "alice" 4 4 2
                  RoomClaims.reachable_twoPlayers eq_refl eq_refl Hsym)).
  reflexivity.
Defined.

End StoreMore.

(** ** The effect that declares a draw *)

Module EffectFacts.

(** X29: the draw effect never has anything to do: in every state the
    component can show outside multiplayer mode the effect "check if the
    entire game is a draw" leaves the state as it is, because
    [handleMove] has already ended a game whose main board is full. *)
Theorem draw_effect_changes_nothing (s : Local.State) :
  Local.reachable s → Local.drawEffect s = s.
Proof. apply DriverClaims.drawEffect_idle. Qed.

Lemma draw_effect_changes_nothing_witness :
  Local.reachable (Local.play Local.initial beforeDrawLine)
  ∧ Local.drawEffect (Local.play Local.initial beforeDrawLine)
    = Local.play Local.initial beforeDrawLine.
Proof.
  assert (Local.reachable (Local.play Local.initial beforeDrawLine)) as Hr
    by apply DriverClaims.local_reachable_play, Local.reach_initial.
  split; [exact Hr|]. apply (draw_effect_changes_nothing _ Hr).
Defined.

End EffectFacts.
